(** * TurboCookedRabbit v2: the reliable publisher

    A shallow embedding of [v2/pkg/tcr/publisher.go].

    The publisher talks to three collaborators whose code lives elsewhere:
    the connection pool ([GetChannelFromPool], [ReturnChannel]), the AMQP
    channel ([Channel.Publish], the [Confirmations] stream) and the Go
    runtime ([time.After], [select], goroutines, [sync.WaitGroup]).  Each
    of the publish functions is embedded as a machine over its program
    points; what the collaborators answer is an input of the machine, and
    what the publisher asks of them is recorded as a trace of calls. *)

From stdpp Require Import base numbers list strings pretty.

Section Publisher.

(** The types the publisher only passes around.  [letter.LetterID] answers
    to [String()]; [Headers] is an [amqp.Table]; a [*ChannelHost] is used
    through its methods and is otherwise a handle. *)
Context (UUID Table ChannelHost : Type) (UUID_String : UUID → string).

(** ** Data model *)

(** Modelled from the spec: the structs [Envelope], [Letter] and
    [PublishReceipt] are declared outside publisher.go; their fields are
    those of the data model, which are the ones the publisher reads and
    writes. *)
Record Envelope := {
  Exchange : string;
  RoutingKey : string;
  ContentType : string;
  Mandatory : bool;
  Immediate : bool;
  Headers : Table;
  DeliveryMode : Z;
  Priority : Z;
  CorrelationID : string;
  Type_ : string
}.

Record Letter := {
  LetterID : UUID;
  LEnvelope : Envelope;
  Body : list Byte.byte
}.

(** Go's [error]: a message, and for [fmt.Errorf] with the verb w the
    error it wraps.  The nil error is [None] of [option error]. *)
Inductive error : Type :=
| errorString (msg : string)
| wrapError (msg : string) (err : error).

Definition Error_ (e : error) : string :=
  match e with
  | errorString msg => msg
  | wrapError msg _ => msg
  end.

Definition Unwrap (e : error) : option error :=
  match e with
  | errorString _ => None
  | wrapError _ err => Some err
  end.

Record PublishReceipt := {
  RLetterID : UUID;
  Success : bool;
  Error : option error;
  FailedLetter : option Letter
}.

(** [time.Duration] counts nanoseconds. *)
Definition Duration := Z.
Definition Millisecond : Duration := 1000000%Z.

(** The publisher's fields that the publish paths read. *)
Record Publisher := {
  ApplicationName : string;       (* pub.ConnectionPool.Config.ApplicationName *)
  MaxCacheChannelCount : nat;     (* pub.ConnectionPool.Config.MaxCacheChannelCount *)
  publishTimeOutDuration : Duration
}.

(** The [amqp.Publishing] handed to [Channel.Publish].  Its [Timestamp]
    is the wall clock at the call and is left out. *)
Record Publishing := {
  P_ContentType : string;
  P_Body : list Byte.byte;
  P_Headers : Table;
  P_DeliveryMode : Z;
  P_Priority : Z;
  P_MessageId : string;
  P_CorrelationId : string;
  P_Type : string;
  P_AppId : string
}.

Definition publishing (pub : Publisher) (letter : Letter) : Publishing :=
  {| P_ContentType := ContentType (LEnvelope letter);
     P_Body := Body letter;
     P_Headers := Headers (LEnvelope letter);
     P_DeliveryMode := DeliveryMode (LEnvelope letter);
     P_Priority := Priority (LEnvelope letter);
     P_MessageId := UUID_String (LetterID letter);
     P_CorrelationId := CorrelationID (LEnvelope letter);
     P_Type := Type_ (LEnvelope letter);
     P_AppId := ApplicationName pub |}.

(** ** The calls a publish path makes *)

Inductive Call : Type :=
| GetChannelFromPool
| FlushConfirms (chanHost : ChannelHost)
| TimeAfter (d : Duration)
| ChannelPublish (chanHost : ChannelHost) (exchange key : string)
    (mandatory immediate : bool) (msg : Publishing)
| GoPublishReceipt (receipt : PublishReceipt)
| ReturnChannel (chanHost : option ChannelHost) (erred : bool)
| Sleep (d : Duration).

Definition submit (pub : Publisher) (chanHost : ChannelHost) (letter : Letter) : Call :=
  ChannelPublish chanHost
    (Exchange (LEnvelope letter)) (RoutingKey (LEnvelope letter))
    (Mandatory (LEnvelope letter)) (Immediate (LEnvelope letter))
    (publishing pub letter).

(** [publishReceipt] (lines 611-630): the receipt its goroutine builds
    and sends to [pub.publishReceipts]. *)
Definition publishReceipt (l : Letter) (e : option error) : PublishReceipt :=
  match e with
  | None =>
      {| RLetterID := LetterID l; Error := None;
         Success := true; FailedLetter := None |}
  | Some err =>
      {| RLetterID := LetterID l; Error := Some err;
         Success := false; FailedLetter := Some l |}
  end.

(** The two errors [PublishWithConfirmation] makes with [fmt.Errorf]. *)
Definition acquireError (letter : Letter) (err : error) : error :=
  wrapError ("publish of LetterID: " +:+ UUID_String (LetterID letter)
             +:+ " failed: " +:+ Error_ err) err.

Definition timeoutError (letter : Letter) : error :=
  errorString ("publish confirmation for LetterID: "
               +:+ UUID_String (LetterID letter)
               +:+ " wasn't received in a timely manner - recommend retry/requeue").

(** ** What the collaborators answer *)

(** Modelled from the spec: [ConnectionPool.GetChannelFromPool] is
    declared outside publisher.go and gives "ChannelHost | Error": a host,
    or an error with the nil host.  [Channel.Publish] gives an error or
    nil.  A [select] over the timer, the confirmation stream and
    [default] takes one of its cases; an [amqp.Confirmation] carries
    [Ack] and the delivery tag. *)
Inductive SelectCase : Type :=
| TimedOut
| Confirmation (Ack : bool) (DeliveryTag : Z)
| Default.

Inductive Answer : Type :=
| GotChannel (r : ChannelHost + error)
| Published (err : option error)
| Selected (c : SelectCase).

(** ** PublishWithConfirmation (lines 188-253) *)

(** Program points: the head of the outer [for] (line 196), the label
    [Publish] (line 203), the [select] of the inner [for] (line 230), and
    the function having returned [r]. *)
Inductive PC (R : Type) : Type :=
| AtAcquire
| AtPublish (chanHost : ChannelHost)
| AtSelect (chanHost : ChannelHost)
| Returned (r : R).

Arguments AtAcquire {R}.
Arguments AtPublish {R} chanHost.
Arguments AtSelect {R} chanHost.
Arguments Returned {R} r.

Definition isReturned {R : Type} (pc : PC R) : bool :=
  match pc with Returned _ => true | _ => false end.

Definition stepConfirmation (pub : Publisher) (letter : Letter) (timeout : Duration)
    (pc : PC unit) (a : Answer) : option (PC unit * list Call) :=
  match pc, a with
  | AtAcquire, GotChannel (inr err) =>
      Some (Returned (),
            [GetChannelFromPool;
             GoPublishReceipt (publishReceipt letter (Some (acquireError letter err)))])
  | AtAcquire, GotChannel (inl chanHost) =>
      Some (AtPublish chanHost, [GetChannelFromPool; FlushConfirms chanHost])
  | AtPublish chanHost, Published (Some _) =>
      Some (AtAcquire,
            [TimeAfter timeout; submit pub chanHost letter;
             ReturnChannel (Some chanHost) true])
  | AtPublish chanHost, Published None =>
      Some (AtSelect chanHost, [TimeAfter timeout; submit pub chanHost letter])
  | AtSelect chanHost, Selected TimedOut =>
      Some (Returned (),
            [GoPublishReceipt (publishReceipt letter (Some (timeoutError letter)));
             ReturnChannel (Some chanHost) false])
  | AtSelect chanHost, Selected (Confirmation false _) =>
      Some (AtPublish chanHost, [])
  | AtSelect chanHost, Selected (Confirmation true _) =>
      Some (Returned (),
            [GoPublishReceipt (publishReceipt letter None);
             ReturnChannel (Some chanHost) false])
  | AtSelect chanHost, Selected Default =>
      Some (AtSelect chanHost, [Sleep (Millisecond * 1)%Z])
  | _, _ => None
  end.

(** ** PublishWithConfirmationError (lines 260-322) *)

Definition stepConfirmationError (pub : Publisher) (letter : Letter) (timeout : Duration)
    (pc : PC (option error)) (a : Answer) : option (PC (option error) * list Call) :=
  match pc, a with
  | AtAcquire, GotChannel (inr err) =>
      Some (Returned (Some (acquireError letter err)), [GetChannelFromPool])
  | AtAcquire, GotChannel (inl chanHost) =>
      Some (AtPublish chanHost, [GetChannelFromPool; FlushConfirms chanHost])
  | AtPublish chanHost, Published (Some _) =>
      Some (AtAcquire,
            [TimeAfter timeout; submit pub chanHost letter;
             ReturnChannel (Some chanHost) true])
  | AtPublish chanHost, Published None =>
      Some (AtSelect chanHost, [TimeAfter timeout; submit pub chanHost letter])
  | AtSelect chanHost, Selected TimedOut =>
      Some (Returned (Some (timeoutError letter)),
            [ReturnChannel (Some chanHost) false])
  | AtSelect chanHost, Selected (Confirmation false _) =>
      Some (AtPublish chanHost, [])
  | AtSelect chanHost, Selected (Confirmation true _) =>
      Some (Returned None, [ReturnChannel (Some chanHost) false])
  | AtSelect chanHost, Selected Default =>
      Some (AtSelect chanHost, [Sleep (Millisecond * 1)%Z])
  | _, _ => None
  end.

(** Running a machine against the answers of the collaborators, in the
    order they are asked for.  A function that has returned asks for
    nothing more; an answer of the wrong kind for the program point is
    not an execution ([None]); when the answers run out the machine is
    left where it waits. *)
Fixpoint run {R : Type} (step : PC R → Answer → option (PC R * list Call))
    (pc : PC R) (answers : list Answer) : option (PC R * list Call) :=
  match answers with
  | [] => Some (pc, [])
  | a :: rest =>
      match pc with
      | Returned _ => Some (pc, [])
      | _ =>
          match step pc a with
          | None => None
          | Some (pc', calls) =>
              match run step pc' rest with
              | None => None
              | Some (final, trace) => Some (final, calls ++ trace)
              end
          end
      end
  end.

(** Lines 190-192: a zero timeout is replaced by the configured one. *)
Definition effectiveTimeout (pub : Publisher) (timeout : Duration) : Duration :=
  if decide (timeout = 0%Z) then publishTimeOutDuration pub else timeout.

Definition PublishWithConfirmation (pub : Publisher) (letter : Letter)
    (timeout : Duration) (answers : list Answer) : option (PC unit * list Call) :=
  let timeout := effectiveTimeout pub timeout in
  run (stepConfirmation pub letter timeout) AtAcquire answers.

Definition PublishWithConfirmationError (pub : Publisher) (letter : Letter)
    (timeout : Duration) (answers : list Answer)
    : option (PC (option error) * list Call) :=
  let timeout := effectiveTimeout pub timeout in
  run (stepConfirmationError pub letter timeout) AtAcquire answers.

(** ** Publish (lines 74-108) *)

(** Straight-line code: [acquired] is what [GetChannelFromPool] gives and
    [submitted] what [Channel.Publish] gives when it is reached.  On a
    failed acquisition the host variable holds nil. *)
Definition Publish (pub : Publisher) (letter : Letter) (skipReceipt : bool)
    (acquired : ChannelHost + error) (submitted : option error) : list Call :=
  match acquired with
  | inr _ => [GetChannelFromPool; ReturnChannel None true]
  | inl chanHost =>
      [GetChannelFromPool; submit pub chanHost letter]
      ++ (if skipReceipt then []
          else [GoPublishReceipt (publishReceipt letter submitted)])
      ++ [ReturnChannel (Some chanHost) (bool_decide (submitted ≠ None))]
  end.

(** ** Reading a trace *)

Definition receipts (trace : list Call) : list PublishReceipt :=
  omap (λ c, match c with GoPublishReceipt r => Some r | _ => None end) trace.

Definition submissions (trace : list Call) : list ChannelHost :=
  omap (λ c, match c with ChannelPublish h _ _ _ _ _ => Some h | _ => None end) trace.

Definition acquisitions (trace : list Call) : nat :=
  length (omap (λ c, match c with GetChannelFromPool => Some () | _ => None end) trace).

Definition returns (trace : list Call) : list (option ChannelHost * bool) :=
  omap (λ c, match c with ReturnChannel h erred => Some (h, erred) | _ => None end) trace.

(** A receipt the publisher emits for [letter]: one a publish path hands
    to [publishReceipt]. *)
Inductive Emits (pub : Publisher) (letter : Letter) : PublishReceipt → Prop :=
| Emits_Publish skipReceipt acquired submitted r :
    r ∈ receipts (Publish pub letter skipReceipt acquired submitted) →
    Emits pub letter r
| Emits_PublishWithConfirmation timeout answers pc trace r :
    PublishWithConfirmation pub letter timeout answers = Some (pc, trace) →
    r ∈ receipts trace →
    Emits pub letter r.

(** Answers that nack [n] submissions in a row (each resubmission is
    accepted by the channel), and the calls they cause. *)
Definition nacks (n : nat) (tag : Z) : list Answer :=
  mjoin (replicate n [Selected (Confirmation false tag); Published None]).

Definition resubmissions (pub : Publisher) (letter : Letter) (timeout : Duration)
    (chanHost : ChannelHost) (n : nat) : list Call :=
  mjoin (replicate n [TimeAfter timeout; submit pub chanHost letter]).

(** Answers for rounds of the outer loop that each acquire a channel and
    fail to submit on it, and the calls they cause. *)
Definition failedRounds (rounds : list (ChannelHost * error)) : list Answer :=
  rounds ≫= λ '(chanHost, err), [GotChannel (inl chanHost); Published (Some err)].

Definition failedRoundsTrace (pub : Publisher) (letter : Letter) (timeout : Duration)
    (rounds : list (ChannelHost * error)) : list Call :=
  rounds ≫= λ '(chanHost, _),
    [GetChannelFromPool; FlushConfirms chanHost; TimeAfter timeout;
     submit pub chanHost letter; ReturnChannel (Some chanHost) true].

(** ** Channels, select, and the publisher's shared state *)

(** A Go channel: what is buffered, the capacity it was made with, and
    whether it has been closed. *)
Record chan (A : Type) := {
  buf : list A;
  cap : nat;
  closed : bool
}.

Arguments buf {A} c.
Arguments cap {A} c.
Arguments closed {A} c.

Definition make (A : Type) (n : nat) : chan A :=
  {| buf := []; cap := n; closed := false |}.

Definition close {A} (c : chan A) : chan A :=
  {| buf := buf c; cap := cap c; closed := true |}.

Definition push {A} (c : chan A) (a : A) : chan A :=
  {| buf := buf c ++ [a]; cap := cap c; closed := closed c |}.

Definition pop {A} (c : chan A) : chan A :=
  {| buf := tail (buf c); cap := cap c; closed := closed c |}.

(** A receive can proceed when something is buffered or the channel is
    closed; a send when there is room, or when the channel is closed (it
    then proceeds by panicking). *)
Definition canRecv {A} (c : chan A) : bool :=
  bool_decide (buf c ≠ []) || closed c.

Definition canSend {A} (c : chan A) : bool :=
  bool_decide (length (buf c) < cap c) || closed c.

(** A [select] with two communications and no [default]: it blocks
    ([None]) while neither can proceed; when both can, the runtime picks
    one of them, and [pick] is its pick. *)
Inductive Chosen : Type := First | Second.

Definition select2 (ready1 ready2 : bool) (pick : Chosen) : option Chosen :=
  match ready1, ready2 with
  | true, true => Some pick
  | true, false => Some First
  | false, true => Some Second
  | false, false => None
  end.

Record Shared := {
  shutdownSignal : chan unit;
  letters : chan Letter;
  publishReceipts : chan PublishReceipt;
  autoStarted : bool;
  wg : nat;
  (* the parallelPublishSemaphore of every deliverLetters call so far *)
  semaphores : list (chan unit);
  (* pub.ConnectionPool.Shutdown() has been called *)
  poolsShutdown : bool
}.

Definition set_shutdownSignal (c : chan unit) (sh : Shared) : Shared :=
  {| shutdownSignal := c; letters := letters sh;
     publishReceipts := publishReceipts sh; autoStarted := autoStarted sh;
     wg := wg sh; semaphores := semaphores sh; poolsShutdown := poolsShutdown sh |}.

Definition set_letters (c : chan Letter) (sh : Shared) : Shared :=
  {| shutdownSignal := shutdownSignal sh; letters := c;
     publishReceipts := publishReceipts sh; autoStarted := autoStarted sh;
     wg := wg sh; semaphores := semaphores sh; poolsShutdown := poolsShutdown sh |}.

Definition set_publishReceipts (c : chan PublishReceipt) (sh : Shared) : Shared :=
  {| shutdownSignal := shutdownSignal sh; letters := letters sh;
     publishReceipts := c; autoStarted := autoStarted sh;
     wg := wg sh; semaphores := semaphores sh; poolsShutdown := poolsShutdown sh |}.

Definition set_autoStarted (b : bool) (sh : Shared) : Shared :=
  {| shutdownSignal := shutdownSignal sh; letters := letters sh;
     publishReceipts := publishReceipts sh; autoStarted := b;
     wg := wg sh; semaphores := semaphores sh; poolsShutdown := poolsShutdown sh |}.

Definition set_wg (n : nat) (sh : Shared) : Shared :=
  {| shutdownSignal := shutdownSignal sh; letters := letters sh;
     publishReceipts := publishReceipts sh; autoStarted := autoStarted sh;
     wg := n; semaphores := semaphores sh; poolsShutdown := poolsShutdown sh |}.

Definition set_semaphores (l : list (chan unit)) (sh : Shared) : Shared :=
  {| shutdownSignal := shutdownSignal sh; letters := letters sh;
     publishReceipts := publishReceipts sh; autoStarted := autoStarted sh;
     wg := wg sh; semaphores := l; poolsShutdown := poolsShutdown sh |}.

Definition set_poolsShutdown (b : bool) (sh : Shared) : Shared :=
  {| shutdownSignal := shutdownSignal sh; letters := letters sh;
     publishReceipts := publishReceipts sh; autoStarted := autoStarted sh;
     wg := wg sh; semaphores := semaphores sh; poolsShutdown := b |}.

(** [NewPublisher] (lines 53-68). *)
Definition NewPublisher : Shared :=
  {| shutdownSignal := make unit 0;
     letters := make Letter 1000;
     publishReceipts := make PublishReceipt 1000;
     autoStarted := false;
     wg := 0;
     semaphores := [];
     poolsShutdown := false |}.

(** [wg.Add(1)] and [wg.Done()]; [Done] on a zero counter panics. *)
Definition wgAdd (n : nat) (sh : Shared) : Shared := set_wg (wg sh + n) sh.

Definition wgDone (sh : Shared) : option Shared :=
  match wg sh with
  | O => None
  | S n => Some (set_wg n sh)
  end.

(** ** safeSend, QueueLetter, QueueLetters (lines 576-608) *)

(** How a piece of code ends: it returns, it panics, or it waits for ever
    unless the state changes. *)
Inductive Exec (A : Type) : Type :=
| Ret (a : A)
| Panics
| Blocks.

Arguments Ret {A} a.
Arguments Panics {A}.
Arguments Blocks {A}.

(** The [select] of lines 602-607. *)
Definition safeSendSelect (sh : Shared) (letter : Letter) (pick : Chosen)
    : Exec (bool * Shared) :=
  match select2 (canRecv (shutdownSignal sh)) (canSend (letters sh)) pick with
  | None => Blocks
  | Some First => Ret (false, sh)
  | Some Second =>
      if closed (letters sh) then Panics
      else Ret (true, set_letters (push (letters sh) letter) sh)
  end.

(** The deferred [recover] of lines 596-600 turns a panic into [ok = false]. *)
Definition safeSend (sh : Shared) (letter : Letter) (pick : Chosen)
    : Exec (bool * Shared) :=
  match safeSendSelect sh letter pick with
  | Panics => Ret (false, sh)
  | r => r
  end.

Definition QueueLetter (sh : Shared) (letter : Letter) (pick : Chosen)
    : Exec (bool * Shared) :=
  safeSend sh letter pick.

(** [picks] gives the runtime's pick at the [select] of each iteration. *)
Fixpoint QueueLetters (sh : Shared) (ls : list Letter) (picks : nat → Chosen)
    : Exec (bool * Shared) :=
  match ls with
  | [] => Ret (true, sh)
  | letter :: rest =>
      match safeSend sh letter (picks O) with
      | Ret (true, sh') => QueueLetters sh' rest (λ i, picks (S i))
      | r => r
      end
  end.

(** ** The goroutines of a publisher *)

(** Program points of [StartAutoPublishing] (lines 536-539). *)
Inductive StartPC : Type := SCheck | SSet | SAdd | SGo.

(** Program points of [Shutdown] (lines 635, 637, 642). *)
Inductive ShutdownPC : Type := HClose | HPools | HWait.

(** Program points of [startAutoPublishingLoop] with [deliverLetters]
    inlined: line 555, the [select] of line 558, lines 563, 564 and 565,
    then line 549 and the deferred [wg.Done] of line 545.  [sem] is the
    index of the loop's own semaphore in [semaphores]. *)
Inductive LoopPC : Type :=
| LMake
| LSelect (sem : nat)
| LThrottle (sem : nat) (letter : Letter)
| LAdd (sem : nat) (letter : Letter)
| LGo (sem : nat) (letter : Letter)
| LSetStopped
| LDone.

(** Program points of the goroutine of lines 565-570: inside
    [PublishWithConfirmation] (line 568; once that has returned, at the
    receive of line 569), and the deferred [wg.Done] of line 566. *)
Inductive AttemptPC : Type :=
| APublishing (pc : PC unit)
| ADone.

(** Program points of the goroutine of [publishReceipt]: the send of line
    627 and the deferred [wg.Done] of line 614. *)
Inductive EmissionPC : Type := ESend | EDone.

Inductive Goroutine : Type :=
(* callers of the publisher's methods *)
| InStartAutoPublishing (pc : StartPC)
| InShutdown (shutdownPools : bool) (pc : ShutdownPC)
| InQueueLetters (rest : list Letter)
| InPublishWithConfirmation (letter : Letter) (timeout : Duration) (pc : PC unit)
(* goroutines the publisher starts with a go statement *)
| AutoPublishingLoop (pc : LoopPC)
| Attempt (sem : nat) (letter : Letter) (pc : AttemptPC)
| ReceiptEmission (receipt : PublishReceipt) (pc : EmissionPC)
(* a call that has returned, a goroutine that has ended *)
| Finished (ok : option bool).

(** What the runtime and the collaborators decide for one step. *)
Record Oracle := {
  pick : Chosen;
  answer : Answer
}.

(** A step of [PublishWithConfirmation] inside a goroutine.  Its call of
    [publishReceipt] is [wg.Add(1)] followed by the go statement (lines
    612-613), taken together. *)
Definition publishingStep (pub : Publisher) (sh : Shared) (letter : Letter)
    (timeout : Duration) (pc : PC unit) (a : Answer) (k : PC unit → Goroutine)
    : option (Shared * Goroutine * list Goroutine) :=
  match stepConfirmation pub letter (effectiveTimeout pub timeout) pc a with
  | None => None
  | Some (pc', calls) =>
      Some (wgAdd (length (receipts calls)) sh, k pc',
            (λ r, ReceiptEmission r ESend) <$> receipts calls)
  end.

(** Line 555: the capacity of [parallelPublishSemaphore]. *)
Definition capacity (pub : Publisher) : nat :=
  MaxCacheChannelCount pub / 2 + 1.

(** One step of one goroutine: the shared state after it, the goroutine
    after it, and the goroutines it started.  [None]: the goroutine
    cannot move (it is blocked, it has ended, or the step would crash the
    process). *)
Definition goStep (pub : Publisher) (sh : Shared) (g : Goroutine) (o : Oracle)
    : option (Shared * Goroutine * list Goroutine) :=
  match g with
  | InStartAutoPublishing SCheck =>
      if autoStarted sh then Some (sh, Finished None, [])
      else Some (sh, InStartAutoPublishing SSet, [])
  | InStartAutoPublishing SSet =>
      Some (set_autoStarted true sh, InStartAutoPublishing SAdd, [])
  | InStartAutoPublishing SAdd =>
      Some (wgAdd 1 sh, InStartAutoPublishing SGo, [])
  | InStartAutoPublishing SGo =>
      Some (sh, Finished None, [AutoPublishingLoop LMake])
  | InShutdown b HClose =>
      if closed (shutdownSignal sh) then None (* close of a closed channel *)
      else Some (set_shutdownSignal (close (shutdownSignal sh)) sh, InShutdown b HPools, [])
  | InShutdown b HPools =>
      Some (if b then set_poolsShutdown true sh else sh, InShutdown b HWait, [])
  | InShutdown b HWait =>
      if decide (wg sh = 0) then Some (sh, Finished None, []) else None
  | InQueueLetters [] => Some (sh, Finished (Some true), [])
  | InQueueLetters (letter :: rest) =>
      match safeSend sh letter (pick o) with
      | Ret (true, sh') => Some (sh', InQueueLetters rest, [])
      | Ret (false, sh') => Some (sh', Finished (Some false), [])
      | _ => None
      end
  | InPublishWithConfirmation letter timeout (Returned _) =>
      Some (sh, Finished None, [])
  | InPublishWithConfirmation letter timeout pc =>
      publishingStep pub sh letter timeout pc (answer o)
        (InPublishWithConfirmation letter timeout)
  | AutoPublishingLoop LMake =>
      Some (set_semaphores
              (semaphores sh ++ [make unit (capacity pub)]) sh,
            AutoPublishingLoop (LSelect (length (semaphores sh))), [])
  | AutoPublishingLoop (LSelect sem) =>
      match select2 (canRecv (shutdownSignal sh)) (canRecv (letters sh)) (pick o) with
      | None => None
      | Some First => Some (sh, AutoPublishingLoop LSetStopped, [])
      | Some Second =>
          match buf (letters sh) with
          | letter :: _ =>
              Some (set_letters (pop (letters sh)) sh,
                    AutoPublishingLoop (LThrottle sem letter), [])
          | [] => None (* a nil letter from a closed queue *)
          end
      end
  | AutoPublishingLoop (LThrottle sem letter) =>
      match semaphores sh !! sem with
      | Some c =>
          if bool_decide (length (buf c) < cap c)
          then Some (set_semaphores (<[sem := push c ()]> (semaphores sh)) sh,
                     AutoPublishingLoop (LAdd sem letter), [])
          else None
      | None => None
      end
  | AutoPublishingLoop (LAdd sem letter) =>
      Some (wgAdd 1 sh, AutoPublishingLoop (LGo sem letter), [])
  | AutoPublishingLoop (LGo sem letter) =>
      Some (sh, AutoPublishingLoop (LSelect sem),
            [Attempt sem letter (APublishing AtAcquire)])
  | AutoPublishingLoop LSetStopped =>
      Some (set_autoStarted false sh, AutoPublishingLoop LDone, [])
  | AutoPublishingLoop LDone =>
      match wgDone sh with
      | Some sh' => Some (sh', Finished None, [])
      | None => None
      end
  | Attempt sem letter (APublishing (Returned _)) =>
      match semaphores sh !! sem with
      | Some c =>
          match buf c with
          | _ :: _ =>
              Some (set_semaphores (<[sem := pop c]> (semaphores sh)) sh,
                    Attempt sem letter ADone, [])
          | [] => None
          end
      | None => None
      end
  | Attempt sem letter (APublishing pc) =>
      publishingStep pub sh letter (publishTimeOutDuration pub) pc (answer o)
        (λ pc', Attempt sem letter (APublishing pc'))
  | Attempt sem letter ADone =>
      match wgDone sh with
      | Some sh' => Some (sh', Finished None, [])
      | None => None
      end
  | ReceiptEmission r ESend =>
      if bool_decide (length (buf (publishReceipts sh)) < cap (publishReceipts sh))
      then Some (set_publishReceipts (push (publishReceipts sh) r) sh,
                 ReceiptEmission r EDone, [])
      else None
  | ReceiptEmission r EDone =>
      match wgDone sh with
      | Some sh' => Some (sh', Finished None, [])
      | None => None
      end
  | Finished _ => None
  end.

(** ** The publisher with its goroutines *)

Record System := {
  shared : Shared;
  goroutines : list Goroutine
}.

(** What can happen next: a caller invokes a method of the publisher, the
    goroutine at index [i] takes a step, or the subscriber of
    [PublishReceipts()] takes a receipt. *)
Inductive Invocation : Type :=
| InvokeStartAutoPublishing
| InvokeShutdown (shutdownPools : bool)
| InvokeQueueLetter (letter : Letter)
| InvokeQueueLetters (ls : list Letter)
| InvokePublishWithConfirmation (letter : Letter) (timeout : Duration).

Definition enter (c : Invocation) : Goroutine :=
  match c with
  | InvokeStartAutoPublishing => InStartAutoPublishing SCheck
  | InvokeShutdown b => InShutdown b HClose
  | InvokeQueueLetter letter => InQueueLetters [letter]
  | InvokeQueueLetters ls => InQueueLetters ls
  | InvokePublishWithConfirmation letter timeout =>
      InPublishWithConfirmation letter timeout AtAcquire
  end.

Inductive Event : Type :=
| Invoke (c : Invocation)
| Move (i : nat) (o : Oracle)
| TakeReceipt.

Definition step (pub : Publisher) (st : System) (ev : Event) : option System :=
  match ev with
  | Invoke c =>
      Some {| shared := shared st; goroutines := goroutines st ++ [enter c] |}
  | Move i o =>
      match goroutines st !! i with
      | None => None
      | Some g =>
          match goStep pub (shared st) g o with
          | None => None
          | Some (sh', g', started) =>
              Some {| shared := sh';
                      goroutines := <[i := g']> (goroutines st) ++ started |}
          end
      end
  | TakeReceipt =>
      match buf (publishReceipts (shared st)) with
      | [] => None
      | _ :: _ =>
          Some {| shared := set_publishReceipts (pop (publishReceipts (shared st)))
                              (shared st);
                  goroutines := goroutines st |}
      end
  end.

Fixpoint steps (pub : Publisher) (st : System) (evs : list Event) : option System :=
  match evs with
  | [] => Some st
  | ev :: rest =>
      match step pub st ev with
      | None => None
      | Some st' => steps pub st' rest
      end
  end.

Definition initial : System := {| shared := NewPublisher; goroutines := [] |}.

Definition reachable (pub : Publisher) (st : System) : Prop :=
  ∃ evs, steps pub initial evs = Some st.

(** A goroutine the publisher started that has not ended. *)
Definition spawned (g : Goroutine) : bool :=
  match g with
  | AutoPublishingLoop _ | Attempt _ _ _ | ReceiptEmission _ _ => true
  | _ => false
  end.

(** An attempt of the loop with semaphore [sem] that is under way: its
    goroutine has been started and has not yet given its permit back. *)
Definition inFlight (sem : nat) (g : Goroutine) : nat :=
  match g with
  | Attempt sem' _ (APublishing _) => if decide (sem' = sem) then 1 else 0
  | _ => 0
  end.

(** What a goroutine accounts for in the WaitGroup counter: itself when
    the publisher started it, and a goroutine it has added but not yet
    started. *)
Definition wgShare (g : Goroutine) : nat :=
  match g with
  | InStartAutoPublishing SGo => 1
  | AutoPublishingLoop (LGo _ _) => 2
  | AutoPublishingLoop _ => 1
  | Attempt _ _ _ => 1
  | ReceiptEmission _ _ => 1
  | _ => 0
  end.

(** The permits of semaphore [sem] a goroutine holds. *)
Definition holds (sem : nat) (g : Goroutine) : nat :=
  match g with
  | AutoPublishingLoop (LAdd sem' _) | AutoPublishingLoop (LGo sem' _)
  | Attempt sem' _ (APublishing _) => if decide (sem' = sem) then 1 else 0
  | _ => 0
  end.

Definition permits (sh : Shared) (sem : nat) : nat :=
  from_option (λ c, length (buf c)) O (semaphores sh !! sem).

(** Every semaphore was made with the capacity of line 555 and holds no
    more permits than that. *)
Definition semaphoresOk (pub : Publisher) (sh : Shared) : Prop :=
  ∀ k c, semaphores sh !! k = Some c →
    cap c = capacity pub ∧ length (buf c) ≤ cap c.

(** The WaitGroup counter is what the goroutines account for, and the
    permits taken from each semaphore are those the goroutines hold. *)
Definition invariant (pub : Publisher) (st : System) : Prop :=
  wg (shared st) = sum_list_with wgShare (goroutines st)
  ∧ (∀ k, permits (shared st) k = sum_list_with (holds k) (goroutines st))
  ∧ semaphoresOk pub (shared st).

(** The attempts of the loop with semaphore [sem] that are under way. *)
Definition attemptsInFlight (sem : nat) (st : System) : nat :=
  sum_list_with (inFlight sem) (goroutines st).

(** ** Running the publish machines *)

Lemma run_app {R : Type} (stp : PC R → Answer → option (PC R * list Call))
    (pc pc' : PC R) (s1 s2 : list Answer) (tr1 : list Call) :
  run stp pc s1 = Some (pc', tr1) →
  run stp pc (s1 ++ s2) =
    match run stp pc' s2 with
    | None => None
    | Some (final, tr2) => Some (final, tr1 ++ tr2)
    end.
Proof.
  revert pc pc' tr1. induction s1 as [|a s1 IH]; intros pc pc' tr1 H.
  - simpl in H. injection H as <- <-. simpl.
    destruct (run stp pc s2) as [[? ?]|]; reflexivity.
  - simpl in *.
    destruct pc as [| h | h | r].
    4: { injection H as <- <-. destruct s2; reflexivity. }
    all: destruct (stp _ a) as [[pc1 calls]|]; [|discriminate];
      destruct (run stp pc1 s1) as [[f1 t1]|] eqn:E; [|discriminate];
      injection H as <- <-;
      rewrite (IH _ _ _ E);
      destruct (run stp f1 s2) as [[? ?]|]; [rewrite (assoc_L (++))|]; reflexivity.
Qed.

(** A step hands [publishReceipt] the letter it publishes, and does so
    exactly when it returns. *)
Lemma stepConfirmation_receipts pub letter timeout pc a pc' calls :
  stepConfirmation pub letter timeout pc a = Some (pc', calls) →
  (∃ e, receipts calls = [publishReceipt letter e] ∧ isReturned pc' = true)
  ∨ (receipts calls = [] ∧ isReturned pc' = false).
Proof.
  intros H.
  destruct pc as [| h | h | []]; destruct a as [[h'|err]|[err|]|[|[] tag|]];
    simpl in H; try discriminate; injection H as <- <-;
    first [ right; split; reflexivity
          | left; exists None; split; reflexivity
          | left; exists (Some (timeoutError letter)); split; reflexivity
          | left; exists (Some (acquireError letter err)); split; reflexivity ].
Qed.

Lemma run_receipts pub letter timeout pc answers pc' trace :
  run (stepConfirmation pub letter timeout) pc answers = Some (pc', trace) →
  isReturned pc = false →
  (∃ e, receipts trace = [publishReceipt letter e] ∧ isReturned pc' = true)
  ∨ (receipts trace = [] ∧ isReturned pc' = false).
Proof.
  revert pc trace. induction answers as [|a rest IH]; intros pc trace H Hpc.
  - simpl in H. injection H as <- <-. right. split; [reflexivity | assumption].
  - simpl in H.
    destruct pc as [| h | h | r]; [| | | discriminate Hpc].
    all: destruct (stepConfirmation _ _ _ _ a) as [[pc1 calls]|] eqn:Es; [|discriminate];
      destruct (run _ pc1 rest) as [[f t]|] eqn:Er; [|discriminate];
      injection H as <- <-;
      unfold receipts; rewrite omap_app; fold (receipts calls); fold (receipts t);
      destruct (stepConfirmation_receipts _ _ _ _ _ _ _ Es) as [(e & -> & Hr)|(-> & Hr)].
    all: try (destruct pc1; try discriminate Hr; destruct rest; simpl in Er;
              injection Er as <- <-; left; eauto; fail).
    all: simpl; exact (IH _ _ Er Hr).
Qed.

Lemma run_nacks pub letter timeout chanHost n tag :
  run (stepConfirmation pub letter timeout) (AtSelect chanHost) (nacks n tag)
  = Some (AtSelect chanHost, resubmissions pub letter timeout chanHost n).
Proof.
  induction n as [|n IH]; [reflexivity|].
  change (nacks (S n) tag)
    with (Selected (Confirmation false tag) :: Published None :: nacks n tag).
  change (resubmissions pub letter timeout chanHost (S n))
    with ([TimeAfter timeout; submit pub chanHost letter]
          ++ resubmissions pub letter timeout chanHost n).
  cbn [run stepConfirmation]. rewrite IH. reflexivity.
Qed.

Lemma run_failedRounds pub letter timeout rounds :
  run (stepConfirmation pub letter timeout) AtAcquire (failedRounds rounds)
  = Some (AtAcquire, failedRoundsTrace pub letter timeout rounds).
Proof.
  induction rounds as [|[chanHost err] rounds IH]; [reflexivity|].
  change (failedRounds ((chanHost, err) :: rounds))
    with (GotChannel (inl chanHost) :: Published (Some err) :: failedRounds rounds).
  change (failedRoundsTrace pub letter timeout ((chanHost, err) :: rounds))
    with ([GetChannelFromPool; FlushConfirms chanHost]
          ++ [TimeAfter timeout; submit pub chanHost letter;
              ReturnChannel (Some chanHost) true]
          ++ failedRoundsTrace pub letter timeout rounds).
  cbn [run stepConfirmation]. rewrite IH. reflexivity.
Qed.

Lemma submissions_resubmissions pub letter timeout chanHost n :
  submissions (resubmissions pub letter timeout chanHost n) = replicate n chanHost.
Proof.
  induction n as [|n IH]; [reflexivity|].
  change (resubmissions pub letter timeout chanHost (S n))
    with ([TimeAfter timeout; submit pub chanHost letter]
          ++ resubmissions pub letter timeout chanHost n).
  unfold submissions in *. rewrite omap_app, IH. reflexivity.
Qed.

Lemma returns_failedRoundsTrace pub letter timeout rounds :
  returns (failedRoundsTrace pub letter timeout rounds)
  = (λ round, (Some round.1, true)) <$> rounds.
Proof.
  induction rounds as [|[h e] rounds IH]; [reflexivity|].
  change (failedRoundsTrace pub letter timeout ((h, e) :: rounds))
    with ([GetChannelFromPool; FlushConfirms h; TimeAfter timeout;
           submit pub h letter; ReturnChannel (Some h) true]
          ++ failedRoundsTrace pub letter timeout rounds).
  unfold returns in *. rewrite omap_app, IH. reflexivity.
Qed.

Lemma publishReceipt_spec (l : Letter) (e : option error) :
  RLetterID (publishReceipt l e) = LetterID l
  ∧ Error (publishReceipt l e) = e
  ∧ Success (publishReceipt l e) = bool_decide (e = None)
  ∧ FailedLetter (publishReceipt l e) = match e with None => None | Some _ => Some l end.
Proof. destruct e; repeat split. Qed.

Lemma Emits_publishReceipt pub letter r :
  Emits pub letter r → ∃ e, r = publishReceipt letter e.
Proof.
  intros [skip [h|err] sub r' Hin | timeout answers pc trace r' Hrun Hin].
  - destruct skip; simpl in Hin.
    + inversion Hin.
    + apply list_elem_of_singleton in Hin. eauto.
  - inversion Hin.
  - unfold PublishWithConfirmation in Hrun.
    destruct (run_receipts _ _ _ _ _ _ _ Hrun eq_refl) as [(e & Hr & _)|[Hr _]];
      rewrite Hr in Hin.
    + apply list_elem_of_singleton in Hin. eauto.
    + inversion Hin.
Qed.

(** ** Properties of the publish paths *)

(** C1.  When the [select] of [PublishWithConfirmation] takes the timer
    (the timeout elapses before a confirmation is taken), the call hands
    [publishReceipt] one failure for the letter, returns the channel it
    holds with [erred = false], and returns: whatever the collaborators
    would still answer, the trace ends there, so the letter is not
    submitted again.  That failure is the only receipt of the call; it
    carries the letter's id and the letter itself, and its message names the
    id and says the confirmation was not received in a timely manner,
    recommending retry/requeue. *)
Theorem PublishWithConfirmation_timeout
    pub letter timeout answers rest chanHost trace :
  PublishWithConfirmation pub letter timeout answers = Some (AtSelect chanHost, trace) →
  PublishWithConfirmation pub letter timeout (answers ++ Selected TimedOut :: rest)
  = Some (Returned (),
          trace ++ [GoPublishReceipt (publishReceipt letter (Some (timeoutError letter)));
                    ReturnChannel (Some chanHost) false])
  ∧ receipts (trace ++ [GoPublishReceipt (publishReceipt letter (Some (timeoutError letter)));
                        ReturnChannel (Some chanHost) false])
    = [publishReceipt letter (Some (timeoutError letter))]
  ∧ RLetterID (publishReceipt letter (Some (timeoutError letter))) = LetterID letter
  ∧ Success (publishReceipt letter (Some (timeoutError letter))) = false
  ∧ FailedLetter (publishReceipt letter (Some (timeoutError letter))) = Some letter
  ∧ Error_ <$> Error (publishReceipt letter (Some (timeoutError letter)))
    = Some ("publish confirmation for LetterID: " +:+ UUID_String (LetterID letter)
            +:+ " wasn't received in a timely manner - recommend retry/requeue").
Proof.
  unfold PublishWithConfirmation. intros H.
  split; [|split; [|repeat split]].
  - rewrite (run_app _ _ _ _ _ _ H). destruct rest; reflexivity.
  - destruct (run_receipts _ _ _ _ _ _ _ H eq_refl) as [(e & _ & Hr)|[Hr _]];
      [discriminate Hr|].
    unfold receipts in *. rewrite omap_app, Hr. reflexivity.
Qed.

(** A call that waits in the [select] for the confirmation of a channel
    has submitted the letter on that channel, unless it started there. *)
Lemma run_submitted pub letter timeout pc answers chanHost trace :
  run (stepConfirmation pub letter timeout) pc answers = Some (AtSelect chanHost, trace) →
  pc = AtSelect chanHost ∨ submit pub chanHost letter ∈ trace.
Proof.
  revert pc trace. induction answers as [|a rest IH]; intros pc trace H.
  - left. simpl in H. congruence.
  - simpl in H.
    destruct pc as [|h|h|r]; [| | |discriminate H].
    all: destruct (stepConfirmation _ _ _ _ a) as [[pc' calls]|] eqn:Hs;
      [|discriminate H].
    all: destruct (run _ pc' rest) as [[final tr]|] eqn:Hr; [|discriminate H].
    all: injection H as -> <-.
    all: destruct (IH _ _ Hr) as [->|Hin];
      [|right; apply elem_of_app; right; exact Hin].
    all: simpl in Hs; repeat case_match; simplify_eq.
    all: first [ left; reflexivity
               | right; apply elem_of_app; left; repeat constructor ].
Qed.

(** C2.  When the [select] of [PublishWithConfirmation] takes a negative
    confirmation, the call makes no call for it (no receipt, no error, the
    channel is kept) and is back at the label [Publish] with the same
    channel.  What it does next is start a timer and submit on that
    channel.  The timer [d] runs for the whole [timeout] the caller
    passed, and for the configured [publishTimeOutDuration] when the
    caller passed zero.  The submission [resubmission] is that of the same
    letter: its exchange, routing key and flags, and a message with its
    content type, body, headers, delivery mode, priority, id, correlation
    id and type; it is the call that was made on the channel before the
    nack.  When the channel accepts it the call waits in the [select]
    again.  Any number [n] of nacks in a row are answered by [n] such
    resubmissions on that channel, with no receipt. *)
Theorem PublishWithConfirmation_nack
    pub letter timeout answers chanHost trace tag d resubmission :
  PublishWithConfirmation pub letter timeout answers = Some (AtSelect chanHost, trace) →
  d = (if decide (timeout = 0%Z) then publishTimeOutDuration pub else timeout) →
  resubmission
  = ChannelPublish chanHost
      (Exchange (LEnvelope letter)) (RoutingKey (LEnvelope letter))
      (Mandatory (LEnvelope letter)) (Immediate (LEnvelope letter))
      {| P_ContentType := ContentType (LEnvelope letter);
         P_Body := Body letter;
         P_Headers := Headers (LEnvelope letter);
         P_DeliveryMode := DeliveryMode (LEnvelope letter);
         P_Priority := Priority (LEnvelope letter);
         P_MessageId := UUID_String (LetterID letter);
         P_CorrelationId := CorrelationID (LEnvelope letter);
         P_Type := Type_ (LEnvelope letter);
         P_AppId := ApplicationName pub |} →
  PublishWithConfirmation pub letter timeout (answers ++ [Selected (Confirmation false tag)])
  = Some (AtPublish chanHost, trace)
  ∧ (∀ submitted, ∃ pc more,
       PublishWithConfirmation pub letter timeout
         (answers ++ [Selected (Confirmation false tag); Published submitted])
       = Some (pc, trace ++ TimeAfter d :: resubmission :: more)
       ∧ receipts more = []
       ∧ (submitted = None → pc = AtSelect chanHost ∧ more = []))
  ∧ (∀ n,
       PublishWithConfirmation pub letter timeout
         (answers ++ mjoin (replicate n [Selected (Confirmation false tag); Published None]))
       = Some (AtSelect chanHost,
               trace ++ mjoin (replicate n [TimeAfter d; resubmission]))
       ∧ submissions (mjoin (replicate n [TimeAfter d; resubmission]))
         = replicate n chanHost
       ∧ receipts (trace ++ mjoin (replicate n [TimeAfter d; resubmission])) = [])
  ∧ resubmission ∈ trace.
Proof.
  intros H -> ->.
  change (ChannelPublish _ _ _ _ _ _) with (submit pub chanHost letter).
  change (if decide (timeout = 0%Z) then _ else _) with (effectiveTimeout pub timeout).
  unfold PublishWithConfirmation in *.
  split; [|split; [|split]].
  - rewrite (run_app _ _ _ _ _ _ H). simpl. rewrite (right_id_L [] (++)). reflexivity.
  - intros [err|].
    + exists AtAcquire, [ReturnChannel (Some chanHost) true].
      rewrite (run_app _ _ _ _ _ _ H). repeat split; discriminate.
    + exists (AtSelect chanHost), [].
      rewrite (run_app _ _ _ _ _ _ H). repeat split.
  - intros n.
    change (mjoin (replicate n [Selected (Confirmation false tag); Published None]))
      with (nacks n tag).
    change (mjoin (replicate n [TimeAfter (effectiveTimeout pub timeout);
                                submit pub chanHost letter]))
      with (resubmissions pub letter (effectiveTimeout pub timeout) chanHost n).
    assert (Hrun := run_app _ _ _ _ (nacks n tag) _ H).
    rewrite run_nacks in Hrun. split; [exact Hrun|]. split.
    + apply submissions_resubmissions.
    + destruct (run_receipts _ _ _ _ _ _ _ Hrun eq_refl) as [(e & _ & Hr)|[Hr _]];
        [discriminate Hr | exact Hr].
  - destruct (run_submitted _ _ _ _ _ _ _ H) as [E|Hin]; [discriminate E|exact Hin].
Qed.

(** C3.  When [Channel.Publish] fails in [PublishWithConfirmation], the
    call returns the channel with [erred = true] and is back at the head
    of the outer loop; what it does next is acquire a channel again, flush
    its confirmations and submit the letter on it.  Any number of rounds
    that each acquire a channel and fail to submit are gone through in
    the same way, each channel being returned with [erred = true], and
    none of it hands a receipt to [publishReceipt]. *)
Theorem PublishWithConfirmation_submission_error
    pub letter timeout answers chanHost trace err :
  PublishWithConfirmation pub letter timeout answers = Some (AtPublish chanHost, trace) →
  PublishWithConfirmation pub letter timeout (answers ++ [Published (Some err)])
  = Some (AtAcquire,
          trace ++ [TimeAfter (effectiveTimeout pub timeout); submit pub chanHost letter;
                    ReturnChannel (Some chanHost) true])
  ∧ (∀ fresh,
       PublishWithConfirmation pub letter timeout
         (answers ++ [Published (Some err); GotChannel (inl fresh); Published None])
       = Some (AtSelect fresh,
               trace ++ [TimeAfter (effectiveTimeout pub timeout); submit pub chanHost letter;
                         ReturnChannel (Some chanHost) true;
                         GetChannelFromPool; FlushConfirms fresh;
                         TimeAfter (effectiveTimeout pub timeout); submit pub fresh letter]))
  ∧ (∀ rounds,
       PublishWithConfirmation pub letter timeout
         (answers ++ Published (Some err) :: failedRounds rounds)
       = Some (AtAcquire,
               trace ++ [TimeAfter (effectiveTimeout pub timeout); submit pub chanHost letter;
                         ReturnChannel (Some chanHost) true]
                     ++ failedRoundsTrace pub letter (effectiveTimeout pub timeout) rounds)
       ∧ returns (failedRoundsTrace pub letter (effectiveTimeout pub timeout) rounds)
         = (λ round, (Some round.1, true)) <$> rounds
       ∧ receipts (trace ++ [TimeAfter (effectiveTimeout pub timeout);
                             submit pub chanHost letter;
                             ReturnChannel (Some chanHost) true]
                         ++ failedRoundsTrace pub letter (effectiveTimeout pub timeout) rounds)
         = []).
Proof.
  unfold PublishWithConfirmation. intros H.
  split; [|split].
  - rewrite (run_app _ _ _ _ _ _ H). reflexivity.
  - intros fresh. rewrite (run_app _ _ _ _ _ _ H). reflexivity.
  - intros rounds.
    assert (Hrun := run_app _ _ _ _ (Published (Some err) :: failedRounds rounds) _ H).
    cbn [run stepConfirmation] in Hrun. rewrite run_failedRounds in Hrun.
    split; [exact Hrun|]. split.
    + apply returns_failedRoundsTrace.
    + destruct (run_receipts _ _ _ _ _ _ _ Hrun eq_refl) as [(e & _ & Hr)|[Hr _]];
        [discriminate Hr | exact Hr].
Qed.

(** C4.  A receipt the publisher emits for a letter carries that
    letter's [LetterID]; its [Success] is true exactly when its [Error]
    is nil; it has no [FailedLetter] when the error is nil, and when the
    error is not nil its [FailedLetter] is the letter itself. *)
Theorem PublishReceipt_of_letter pub letter r :
  Emits pub letter r →
  RLetterID r = LetterID letter
  ∧ (Success r = true ↔ Error r = None)
  ∧ (Error r = None → FailedLetter r = None)
  ∧ (Error r ≠ None → FailedLetter r = Some letter).
Proof.
  intros H. destruct (Emits_publishReceipt _ _ _ H) as [[err|] ->]; simpl.
  - repeat split; intros; congruence.
  - repeat split; intros; congruence.
Qed.

(** C7.  With a zero timeout, [PublishWithConfirmation] and
    [PublishWithConfirmationError] do what they do with the publisher's
    configured [publishTimeOutDuration]: the same calls with the same
    arguments, the same result, whatever the collaborators answer. *)
Theorem PublishWithConfirmation_zero_timeout pub letter answers :
  PublishWithConfirmation pub letter 0%Z answers
  = PublishWithConfirmation pub letter (publishTimeOutDuration pub) answers
  ∧ PublishWithConfirmationError pub letter 0%Z answers
    = PublishWithConfirmationError pub letter (publishTimeOutDuration pub) answers.
Proof.
  unfold PublishWithConfirmation, PublishWithConfirmationError, effectiveTimeout.
  destruct (decide (publishTimeOutDuration pub = 0%Z)); split; reflexivity.
Qed.

(** C8, as the code has it.  When [GetChannelFromPool] gives a channel,
    [Publish] acquires once, submits the letter once on that channel, hands
    [publishReceipt] the outcome of the submission exactly when
    [skipReceipt] is false, and returns the channel with [erred] true
    exactly when the submission failed, in this order.  Whatever the
    pool gives, it acquires once and submits at most once. *)
Theorem Publish_once pub letter skipReceipt chanHost submitted acquired :
  Publish pub letter skipReceipt (inl chanHost) submitted
  = [GetChannelFromPool; submit pub chanHost letter]
    ++ (if skipReceipt then [] else [GoPublishReceipt (publishReceipt letter submitted)])
    ++ [ReturnChannel (Some chanHost) (bool_decide (submitted ≠ None))]
  ∧ acquisitions (Publish pub letter skipReceipt (inl chanHost) submitted) = 1
  ∧ submissions (Publish pub letter skipReceipt (inl chanHost) submitted) = [chanHost]
  ∧ receipts (Publish pub letter skipReceipt (inl chanHost) submitted)
    = (if skipReceipt then [] else [publishReceipt letter submitted])
  ∧ returns (Publish pub letter skipReceipt (inl chanHost) submitted)
    = [(Some chanHost, bool_decide (submitted ≠ None))]
  ∧ acquisitions (Publish pub letter skipReceipt acquired submitted) = 1
  ∧ length (submissions (Publish pub letter skipReceipt acquired submitted)) ≤ 1.
Proof.
  repeat split; try (destruct skipReceipt; reflexivity).
  - destruct acquired, skipReceipt; reflexivity.
  - destruct acquired, skipReceipt; simpl; lia.
Qed.

(** C10.  When [GetChannelFromPool] fails, [Publish] calls
    [ReturnChannel] with the nil host and [erred = true] and returns: it
    submits nothing and hands nothing to [publishReceipt], whatever
    [skipReceipt] is. *)
Theorem Publish_acquire_failure pub letter skipReceipt err submitted :
  Publish pub letter skipReceipt (inr err) submitted
  = [GetChannelFromPool; ReturnChannel None true]
  ∧ submissions (Publish pub letter skipReceipt (inr err) submitted) = []
  ∧ receipts (Publish pub letter skipReceipt (inr err) submitted) = []
  ∧ returns (Publish pub letter skipReceipt (inr err) submitted) = [(None, true)].
Proof. repeat split. Qed.

(** ** Enqueueing after shutdown *)






(** ** Invariants of the publisher with its goroutines *)

Lemma sum_list_with_insert {A} (f : A → nat) (l : list A) (i : nat) (x y : A) :
  l !! i = Some x →
  sum_list_with f (<[i := y]> l) + f x = sum_list_with f l + f y.
Proof.
  revert i. induction l as [|a l IH]; intros [|i] H; simpl in *; simplify_eq.
  - lia.
  - specialize (IH _ H). lia.
Qed.

Lemma sum_list_with_zero {A} (f : A → nat) (l : list A) :
  sum_list_with f l = 0 → Forall (λ x, f x = 0) l.
Proof.
  induction l as [|a l IH]; simpl; intros H; constructor.
  - lia.
  - apply IH. lia.
Qed.


Lemma wgShare_emissions (rs : list PublishReceipt) :
  sum_list_with wgShare ((λ r, ReceiptEmission r ESend) <$> rs) = length rs.
Proof.
  induction rs as [|r rs IH]; [reflexivity|].
  rewrite fmap_cons. change (1 + sum_list_with wgShare ((λ r, ReceiptEmission r ESend) <$> rs) = S (length rs)).
  rewrite IH. reflexivity.
Qed.

Lemma holds_emissions sem (rs : list PublishReceipt) :
  sum_list_with (holds sem) ((λ r, ReceiptEmission r ESend) <$> rs) = 0.
Proof.
  induction rs as [|r rs IH]; [reflexivity|].
  rewrite fmap_cons. exact IH.
Qed.

Lemma permits_insert sh sem c c' k :
  semaphores sh !! sem = Some c →
  permits (set_semaphores (<[sem := c']> (semaphores sh)) sh) k
  = if decide (sem = k) then length (buf c') else permits sh k.
Proof.
  intros H. unfold permits. simpl. destruct (decide (sem = k)) as [<-|Hne].
  - rewrite list_lookup_insert_eq; [reflexivity|]. eapply lookup_lt_Some, H.
  - rewrite list_lookup_insert_ne by exact Hne. reflexivity.
Qed.

Lemma permits_make sh c k :
  buf c = [] →
  permits (set_semaphores (semaphores sh ++ [c]) sh) k = permits sh k.
Proof.
  intros Hc. unfold permits. simpl.
  destruct (decide (k < length (semaphores sh))) as [Hlt|Hge].
  - rewrite lookup_app_l by exact Hlt. reflexivity.
  - rewrite (lookup_ge_None_2 (semaphores sh) k) by lia.
    rewrite lookup_app_r by lia.
    destruct (k - length (semaphores sh)) as [|n]; simpl; [rewrite Hc|]; reflexivity.
Qed.

(** Case analysis on a step of a goroutine. *)
Ltac goStep_cases H :=
  unfold goStep, publishingStep, safeSend, safeSendSelect, select2, wgDone, wgAdd in H;
  repeat case_match; simplify_eq.

(** A step changes the WaitGroup counter by what the goroutines account for. *)
Lemma goStep_wg pub sh g o sh' g' started :
  goStep pub sh g o = Some (sh', g', started) →
  wg sh' + wgShare g = wg sh + wgShare g' + sum_list_with wgShare started.
Proof.
  intros H. goStep_cases H; simpl;
    rewrite ?wgShare_emissions; try lia.
Qed.

(** A step changes the permits taken from a semaphore by what the
    goroutines hold of it. *)
Lemma goStep_permits pub sh g o sh' g' started k :
  goStep pub sh g o = Some (sh', g', started) →
  permits sh' k + holds k g = permits sh k + holds k g' + sum_list_with (holds k) started.
Proof.
  intros H. goStep_cases H;
    rewrite ?holds_emissions;
    try (erewrite permits_insert by eassumption);
    try (rewrite permits_make by reflexivity);
    simpl; repeat case_decide; subst; unfold permits; simpl;
    repeat match goal with E : _ !! _ = Some _ |- _ => rewrite E end;
    simpl; rewrite ?length_app; simpl;
    repeat match goal with E : buf _ = _ |- _ => rewrite E end;
    simpl; lia.
Qed.

Lemma goStep_semaphores pub sh g o sh' g' started :
  semaphoresOk pub sh →
  goStep pub sh g o = Some (sh', g', started) →
  semaphoresOk pub sh'.
Proof.
  intros Hok H. goStep_cases H; try exact Hok; intros k c' Hl; simpl in Hl.
  - apply lookup_app_Some in Hl as [Hl|[_ Hl]]; [exact (Hok _ _ Hl)|].
    apply list_lookup_singleton_Some in Hl as [_ <-]. simpl. split; [reflexivity | lia].
  - apply list_lookup_insert_Some in Hl as [(<- & <- & _)|[_ Hl]]; [|exact (Hok _ _ Hl)].
    match goal with E : semaphores sh !! _ = Some ?c |- _ =>
      destruct (Hok _ _ E) as [Hcap Hlen] end.
    simpl. rewrite length_app. simpl. split; [exact Hcap|].
    match goal with E : bool_decide _ = true |- _ => apply bool_decide_eq_true_1 in E end.
    lia.
  - apply list_lookup_insert_Some in Hl as [(<- & <- & _)|[_ Hl]]; [|exact (Hok _ _ Hl)].
    match goal with E : semaphores sh !! _ = Some ?c |- _ =>
      destruct (Hok _ _ E) as [Hcap Hlen] end.
    simpl. split; [exact Hcap|].
    match goal with E : buf _ = _ |- _ => rewrite E in *; simpl in * end.
    lia.
Qed.

Lemma enter_wgShare c : wgShare (enter c) = 0.
Proof. destruct c; reflexivity. Qed.

Lemma enter_holds sem c : holds sem (enter c) = 0.
Proof. destruct c; reflexivity. Qed.

Lemma step_invariant pub st ev st' :
  invariant pub st → step pub st ev = Some st' → invariant pub st'.
Proof.
  intros (Hwg & Hper & Hok) H. destruct ev as [c | i o |]; simpl in H.
  - simplify_eq. split; [|split]; simpl.
    + rewrite sum_list_with_app. simpl. rewrite enter_wgShare. lia.
    + intros k. rewrite sum_list_with_app. simpl. rewrite enter_holds, Hper. lia.
    + exact Hok.
  - destruct (goroutines st !! i) as [g|] eqn:Hg; [|discriminate].
    destruct (goStep pub (shared st) g o) as [[[sh' g'] started]|] eqn:Hs; [|discriminate].
    simplify_eq. split; [|split]; simpl.
    + rewrite sum_list_with_app.
      pose proof (goStep_wg _ _ _ _ _ _ _ Hs).
      pose proof (sum_list_with_insert wgShare _ _ _ g' Hg). lia.
    + intros k. rewrite sum_list_with_app.
      pose proof (goStep_permits _ _ _ _ _ _ _ k Hs).
      pose proof (sum_list_with_insert (holds k) _ _ _ g' Hg).
      specialize (Hper k). lia.
    + exact (goStep_semaphores _ _ _ _ _ _ _ Hok Hs).
  - destruct (buf (publishReceipts (shared st))); [discriminate|].
    simplify_eq. split; [|split]; simpl; assumption.
Qed.

Lemma steps_invariant pub st evs st' :
  invariant pub st → steps pub st evs = Some st' → invariant pub st'.
Proof.
  revert st. induction evs as [|ev evs IH]; intros st Hinv H; simpl in H.
  - simplify_eq. exact Hinv.
  - destruct (step pub st ev) as [st1|] eqn:E; [|discriminate].
    exact (IH _ (step_invariant _ _ _ _ Hinv E) H).
Qed.

Lemma reachable_invariant pub st : reachable pub st → invariant pub st.
Proof.
  intros [evs H]. refine (steps_invariant _ _ _ _ _ H).
  split; [|split]; [reflexivity | reflexivity |]. intros k c Hl. inversion Hl.
Qed.


Lemma spawned_wgShare g : spawned g = true → 0 < wgShare g.
Proof. destruct g as [| | | |[]| | |]; simpl; intros; try discriminate; lia. Qed.

(** The shutdown signal, once closed, stays closed. *)
Lemma goStep_shutdownSignal pub sh g o sh' g' started :
  goStep pub sh g o = Some (sh', g', started) →
  closed (shutdownSignal sh) = true →
  closed (shutdownSignal sh') = true.
Proof. intros H Hc. goStep_cases H; simpl; try exact Hc; reflexivity. Qed.

Lemma steps_shutdownSignal pub st evs st' :
  steps pub st evs = Some st' →
  closed (shutdownSignal (shared st)) = true →
  closed (shutdownSignal (shared st')) = true.
Proof.
  revert st. induction evs as [|ev evs IH]; intros st H Hc; simpl in H.
  - simplify_eq. exact Hc.
  - destruct (step pub st ev) as [st1|] eqn:E; [|discriminate].
    apply (IH _ H). clear IH H.
    destruct ev as [c | i o |]; simpl in E.
    + simplify_eq. exact Hc.
    + destruct (goroutines st !! i) as [g|]; [|discriminate].
      destruct (goStep pub (shared st) g o) as [[[sh' g'] started]|] eqn:Hs; [|discriminate].
      simplify_eq. exact (goStep_shutdownSignal _ _ _ _ _ _ _ Hs Hc).
    + destruct (buf (publishReceipts (shared st))); [discriminate|].
      simplify_eq. exact Hc.
Qed.

(** Line 635 of [Shutdown] closes the signal. *)
Lemma Shutdown_closes pub sh shutdownPools o sh' g' started :
  goStep pub sh (InShutdown shutdownPools HClose) o = Some (sh', g', started) →
  closed (shutdownSignal sh') = true.
Proof. intros H. goStep_cases H. reflexivity. Qed.

(** ** Properties of auto-publishing and shutdown *)


(** C9.  In a state the publisher can reach, the [wg.Wait()] of
    [Shutdown] returns only when no goroutine the publisher started is
    left: while a drain loop, an attempt or a receipt emission has not
    ended, [Shutdown] cannot take the step, and when it takes it every
    goroutine is a caller of the publisher or has ended. *)
Theorem Shutdown_waits_for_spawned pub st i shutdownPools o :
  reachable pub st →
  goroutines st !! i = Some (InShutdown shutdownPools HWait) →
  (Exists (λ g, spawned g = true) (goroutines st) → step pub st (Move i o) = None)
  ∧ (∀ st', step pub st (Move i o) = Some st' →
       goroutines st' = <[i := Finished None]> (goroutines st)
       ∧ Forall (λ g, spawned g = false) (goroutines st')).
Proof.
  intros Hr Hg. destruct (reachable_invariant _ _ Hr) as (Hwg & _ & _).
  assert (Hall : wg (shared st) = 0 → Forall (λ g, spawned g = false) (goroutines st)).
  { intros Hz. rewrite Hwg in Hz. apply sum_list_with_zero in Hz.
    eapply Forall_impl; [exact Hz|]. intros g Hg0. simpl in Hg0.
    destruct (spawned g) eqn:Es; [|reflexivity].
    apply spawned_wgShare in Es. lia. }
  split.
  - intros Hex. simpl. rewrite Hg. simpl.
    destruct (decide (wg (shared st) = 0)) as [Hz|]; [|reflexivity].
    exfalso. specialize (Hall Hz).
    apply Exists_exists in Hex as (g & Hin & Hsp).
    rewrite Forall_forall in Hall. specialize (Hall _ Hin). congruence.
  - intros st' Hs. simpl in Hs. rewrite Hg in Hs. simpl in Hs.
    destruct (decide (wg (shared st) = 0)) as [Hz|]; [|discriminate].
    simplify_eq. simpl. rewrite (right_id_L [] (++)). split; [reflexivity|].
    apply Forall_insert; [exact (Hall Hz) | reflexivity].
Qed.

(** * More of the publisher

    What follows covers the rest of [PublishWithConfirmation] and its
    [Error] variant, the other publish paths, the letters queue and the
    publisher with its goroutines. *)

(** ** Reading a trace, continued *)

(** The hosts whose confirmations were flushed: those the pool gave. *)
Definition flushed (trace : list Call) : list ChannelHost :=
  omap (λ c, match c with FlushConfirms h => Some h | _ => None end) trace.

(** The host a call holds at a program point. *)
Definition holding {R : Type} (pc : PC R) : list ChannelHost :=
  match pc with
  | AtPublish h | AtSelect h => [h]
  | _ => []
  end.

Definition isPoll (a : Answer) : bool :=
  match a with Selected Default => true | _ => false end.

Definition isSleep (c : Call) : bool :=
  match c with Sleep _ => true | _ => false end.

Definition isReceipt (c : Call) : bool :=
  match c with GoPublishReceipt _ => true | _ => false end.

Definition isTimer (c : Call) : bool :=
  match c with TimeAfter _ => true | _ => false end.

Definition without {A : Type} (p : A → bool) (l : list A) : list A :=
  filter (λ x, p x = false) l.

(** The program point of [PublishWithConfirmationError] that answers to
    one of [PublishWithConfirmation]: where the latter has returned after
    handing [publishReceipt] the receipts [rs], the former has returned
    the error of the receipt. *)
Definition errorPoint (pc : PC unit) (rs : list PublishReceipt) : PC (option error) :=
  match pc with
  | AtAcquire => AtAcquire
  | AtPublish h => AtPublish h
  | AtSelect h => AtSelect h
  | Returned _ => Returned (match rs with r :: _ => Error r | [] => None end)
  end.

(** ** PublishWithConfirmation, continued *)

Lemma run_Returned {R : Type} (stp : PC R → Answer → option (PC R * list Call))
    (r : R) (answers : list Answer) :
  run stp (Returned r) answers = Some (Returned r, []).
Proof. destruct answers; reflexivity. Qed.

Lemma run_cons {R : Type} (stp : PC R → Answer → option (PC R * list Call))
    (pc pc' : PC R) (a : Answer) (rest : list Answer) (trace : list Call) :
  isReturned pc = false →
  run stp pc (a :: rest) = Some (pc', trace) →
  ∃ pc1 calls t,
    stp pc a = Some (pc1, calls)
    ∧ run stp pc1 rest = Some (pc', t)
    ∧ trace = calls ++ t.
Proof.
  intros Hpc H. simpl in H.
  destruct pc as [| h | h | r]; [| | | discriminate Hpc].
  all: destruct (stp _ a) as [[pc1 calls]|]; [|discriminate];
    destruct (run stp pc1 rest) as [[f t]|] eqn:E; [|discriminate];
    injection H as <- <-; eauto 6.
Qed.

(** What one step of [PublishWithConfirmation] can be. *)
Lemma stepConfirmation_inv pub letter timeout pc a pc1 calls :
  stepConfirmation pub letter timeout pc a = Some (pc1, calls) →
  (∃ err, pc = AtAcquire ∧ a = GotChannel (inr err) ∧ pc1 = Returned ()
      ∧ calls = [GetChannelFromPool;
                 GoPublishReceipt (publishReceipt letter (Some (acquireError letter err)))])
  ∨ (∃ h, pc = AtAcquire ∧ a = GotChannel (inl h) ∧ pc1 = AtPublish h
      ∧ calls = [GetChannelFromPool; FlushConfirms h])
  ∨ (∃ h err, pc = AtPublish h ∧ a = Published (Some err) ∧ pc1 = AtAcquire
      ∧ calls = [TimeAfter timeout; submit pub h letter; ReturnChannel (Some h) true])
  ∨ (∃ h, pc = AtPublish h ∧ a = Published None ∧ pc1 = AtSelect h
      ∧ calls = [TimeAfter timeout; submit pub h letter])
  ∨ (∃ h, pc = AtSelect h ∧ a = Selected TimedOut ∧ pc1 = Returned ()
      ∧ calls = [GoPublishReceipt (publishReceipt letter (Some (timeoutError letter)));
                 ReturnChannel (Some h) false])
  ∨ (∃ h tag, pc = AtSelect h ∧ a = Selected (Confirmation false tag) ∧ pc1 = AtPublish h
      ∧ calls = [])
  ∨ (∃ h tag, pc = AtSelect h ∧ a = Selected (Confirmation true tag) ∧ pc1 = Returned ()
      ∧ calls = [GoPublishReceipt (publishReceipt letter None);
                 ReturnChannel (Some h) false])
  ∨ (∃ h, pc = AtSelect h ∧ a = Selected Default ∧ pc1 = AtSelect h
      ∧ calls = [Sleep (Millisecond * 1)%Z]).
Proof.
  intros H.
  destruct pc as [| h | h | []]; destruct a as [[h'|err]|[err|]|[|[] tag|]];
    try discriminate H; injection H as <- <-.
  - right; left; repeat eexists.
  - left; repeat eexists.
  - right; right; left; repeat eexists.
  - right; right; right; left; repeat eexists.
  - right; right; right; right; left; repeat eexists.
  - right; right; right; right; right; right; left; repeat eexists.
  - right; right; right; right; right; left; repeat eexists.
  - right; right; right; right; right; right; right; repeat eexists.
Qed.

(** Case analysis on a step of [PublishWithConfirmation]. *)
Ltac stepConfirmation_cases H :=
  apply stepConfirmation_inv in H
    as [(? & -> & -> & -> & ->)|[(? & -> & -> & -> & ->)|[(? & ? & -> & -> & -> & ->)
       |[(? & -> & -> & -> & ->)|[(? & -> & -> & -> & ->)|[(? & ? & -> & -> & -> & ->)
       |[(? & ? & -> & -> & -> & ->)|(? & -> & -> & -> & ->)]]]]]]].

Lemma run_success_ack pub letter timeout pc answers pc' trace r :
  run (stepConfirmation pub letter timeout) pc answers = Some (pc', trace) →
  r ∈ receipts trace →
  Success r = true →
  ∃ tag, Selected (Confirmation true tag) ∈ answers.
Proof.
  revert pc trace. induction answers as [|a rest IH]; intros pc trace H Hin Hs.
  - simpl in H. simplify_eq. inversion Hin.
  - destruct (isReturned pc) eqn:Hpc.
    + destruct pc; try discriminate Hpc. rewrite run_Returned in H.
      simplify_eq. inversion Hin.
    + apply run_cons in H as (pc1 & calls & t & Hstep & Hrun & ->); [|exact Hpc].
      unfold receipts in Hin. rewrite omap_app in Hin.
      apply elem_of_app in Hin as [Hin|Hin].
      * stepConfirmation_cases Hstep; simpl in Hin;
          try (inversion Hin; fail);
          apply list_elem_of_singleton in Hin; subst r;
          try discriminate Hs.
        eexists. apply list_elem_of_here.
      * destruct (IH _ _ Hrun Hin Hs) as [tag Htag].
        exists tag. apply list_elem_of_further, Htag.
Qed.

Lemma run_channels pub letter timeout pc answers pc' trace :
  run (stepConfirmation pub letter timeout) pc answers = Some (pc', trace) →
  ∃ hs last,
    holding pc ++ flushed trace = hs ++ last ++ holding pc'
    ∧ returns trace = ((λ h, (Some h, true)) <$> hs) ++ ((λ h, (Some h, false)) <$> last)
    ∧ length last ≤ 1
    ∧ (last ≠ [] → isReturned pc' = true).
Proof.
  revert pc trace. induction answers as [|a rest IH]; intros pc trace H.
  - simpl in H. simplify_eq. exists [], []. simpl. rewrite (right_id_L [] (++)).
    repeat split; simpl; try lia; congruence.
  - destruct (isReturned pc) eqn:Hpc.
    + destruct pc; try discriminate Hpc. rewrite run_Returned in H.
      simplify_eq. exists [], []. repeat split; simpl; try lia; congruence.
    + apply run_cons in H as (pc1 & calls & t & Hstep & Hrun & ->); [|exact Hpc].
      unfold flushed, returns. rewrite !omap_app.
      fold (flushed t). fold (returns t).
      stepConfirmation_cases Hstep; simpl.
      all: try (rewrite run_Returned in Hrun; simplify_eq; simpl).
      * exists [], []. repeat split; simpl; try lia; congruence.
      * destruct (IH _ _ Hrun) as (hs & last & H1 & H2 & H3 & H4).
        exists hs, last. repeat split; assumption.
      * destruct (IH _ _ Hrun) as (hs & last & H1 & H2 & H3 & H4).
        simpl in H1. exists (x :: hs), last. rewrite H1, H2.
        repeat split; assumption.
      * destruct (IH _ _ Hrun) as (hs & last & H1 & H2 & H3 & H4).
        exists hs, last. repeat split; assumption.
      * exists [], [x]. repeat split; simpl; try lia; congruence.
      * destruct (IH _ _ Hrun) as (hs & last & H1 & H2 & H3 & H4).
        exists hs, last. repeat split; assumption.
      * exists [], [x]. repeat split; simpl; try lia; congruence.
      * destruct (IH _ _ Hrun) as (hs & last & H1 & H2 & H3 & H4).
        exists hs, last. repeat split; assumption.
Qed.

Lemma without_app {A : Type} (p : A → bool) (l k : list A) :
  without p (l ++ k) = without p l ++ without p k.
Proof. apply filter_app. Qed.

Lemma run_without_polls pub letter timeout pc answers pc' trace :
  run (stepConfirmation pub letter timeout) pc answers = Some (pc', trace) →
  run (stepConfirmation pub letter timeout) pc (without isPoll answers)
  = Some (pc', without isSleep trace).
Proof.
  revert pc trace. induction answers as [|a rest IH]; intros pc trace H.
  - simpl in H. simplify_eq. reflexivity.
  - destruct (isReturned pc) eqn:Hpc.
    + destruct pc; try discriminate Hpc. rewrite run_Returned in H.
      simplify_eq. apply run_Returned.
    + apply run_cons in H as (pc1 & calls & t & Hstep & Hrun & ->); [|exact Hpc].
      rewrite without_app. specialize (IH _ _ Hrun).
      stepConfirmation_cases Hstep;
        try (change (run (stepConfirmation pub letter timeout) (AtSelect x)
                       (without isPoll rest)
                     = Some (pc', [] ++ without isSleep t)); exact IH);
        unfold without at 1; rewrite filter_cons_True by reflexivity;
        fold (without isPoll rest);
        cbn [run stepConfirmation]; rewrite IH; reflexivity.
Qed.

Lemma run_error_variant pub letter timeout pc answers :
  isReturned pc = false →
  run (stepConfirmationError pub letter timeout) (errorPoint pc []) answers
  = (λ r, (errorPoint r.1 (receipts r.2), without isReceipt r.2))
    <$> run (stepConfirmation pub letter timeout) pc answers.
Proof.
  revert pc. induction answers as [|a rest IH]; intros pc Hpc.
  - reflexivity.
  - destruct pc as [| h | h | r]; [| | | discriminate Hpc];
      destruct a as [[h'|err]|[err|]|[|[] tag|]]; try reflexivity;
      cbn [run stepConfirmation stepConfirmationError errorPoint];
      rewrite ?run_Returned; try reflexivity.
    all: first
        [ pose proof (IH AtAcquire eq_refl) as E; cbn [errorPoint] in E; rewrite E
        | pose proof (IH (AtPublish h) eq_refl) as E; cbn [errorPoint] in E; rewrite E
        | pose proof (IH (AtPublish h') eq_refl) as E; cbn [errorPoint] in E; rewrite E
        | pose proof (IH (AtSelect h) eq_refl) as E; cbn [errorPoint] in E; rewrite E ];
      destruct (run (stepConfirmation pub letter timeout) _ rest) as [[f t]|];
      reflexivity.
Qed.

(** ** Further properties of PublishWithConfirmation *)

(** X1.  A call of [PublishWithConfirmation] hands [publishReceipt]
    exactly one receipt, for its letter, by the time it returns, and none
    as long as it has not returned. *)
Theorem PublishWithConfirmation_one_receipt pub letter timeout answers pc trace :
  PublishWithConfirmation pub letter timeout answers = Some (pc, trace) →
  (isReturned pc = true → ∃ e, receipts trace = [publishReceipt letter e])
  ∧ (isReturned pc = false → receipts trace = []).
Proof.
  unfold PublishWithConfirmation. intros H.
  destruct (run_receipts _ _ _ _ _ _ _ H eq_refl) as [(e & Hr & Hp)|[Hr Hp]];
    rewrite Hp; split; intros; try discriminate; eauto.
Qed.

(** X2.  [PublishWithConfirmation] reports success only for a letter the
    broker has acknowledged: a receipt with [Success] in its trace means
    that a [select] of the call took a positive confirmation. *)
Theorem PublishWithConfirmation_success_needs_ack
    pub letter timeout answers pc trace r :
  PublishWithConfirmation pub letter timeout answers = Some (pc, trace) →
  r ∈ receipts trace →
  Success r = true →
  ∃ tag, Selected (Confirmation true tag) ∈ answers.
Proof. unfold PublishWithConfirmation. apply run_success_ack. Qed.

(** X3.  [PublishWithConfirmation] leaks no channel: when it has
    returned, the hosts it has returned to the pool are the hosts the
    pool gave it, in the same order and each once; every one is returned
    with [erred = true] except that the last may be returned healthy. *)
Theorem PublishWithConfirmation_returns_every_channel
    pub letter timeout answers trace :
  PublishWithConfirmation pub letter timeout answers = Some (Returned (), trace) →
  ∃ hs last,
    flushed trace = hs ++ last
    ∧ returns trace = ((λ h, (Some h, true)) <$> hs) ++ ((λ h, (Some h, false)) <$> last)
    ∧ length last ≤ 1.
Proof.
  unfold PublishWithConfirmation. intros H.
  destruct (run_channels _ _ _ _ _ _ _ H) as (hs & last & H1 & H2 & H3 & _).
  simpl in H1. rewrite (right_id_L [] (++)) in H1. eauto.
Qed.

(** X4.  Whenever [GetChannelFromPool] fails in
    [PublishWithConfirmation], at the first acquisition or after failed
    submissions, the call hands [publishReceipt] a failure whose error
    wraps the pool's error and names the letter's id, calls
    [ReturnChannel] for nothing, and returns. *)
Theorem PublishWithConfirmation_acquire_failure
    pub letter timeout answers rest trace err :
  PublishWithConfirmation pub letter timeout answers = Some (AtAcquire, trace) →
  PublishWithConfirmation pub letter timeout (answers ++ GotChannel (inr err) :: rest)
  = Some (Returned (),
          trace ++ [GetChannelFromPool;
                    GoPublishReceipt (publishReceipt letter (Some (acquireError letter err)))])
  ∧ receipts (trace ++ [GetChannelFromPool;
                        GoPublishReceipt
                          (publishReceipt letter (Some (acquireError letter err)))])
    = [publishReceipt letter (Some (acquireError letter err))]
  ∧ Unwrap (acquireError letter err) = Some err
  ∧ Error_ (acquireError letter err)
    = "publish of LetterID: " +:+ UUID_String (LetterID letter)
      +:+ " failed: " +:+ Error_ err.
Proof.
  unfold PublishWithConfirmation. intros H. split; [|split; [|split; reflexivity]].
  - rewrite (run_app _ _ _ _ _ _ H). destruct rest; reflexivity.
  - destruct (run_receipts _ _ _ _ _ _ _ H eq_refl) as [(e & _ & Hr)|[Hr _]];
      [discriminate Hr|].
    unfold receipts in *. rewrite omap_app, Hr. reflexivity.
Qed.

(** X5.  The polling of the [select] is not observable: leaving out the
    polls that found nothing ready gives the same run, with the same
    calls in the same order but for the sleeps. *)
Theorem PublishWithConfirmation_polls_unobservable
    pub letter timeout answers pc trace :
  PublishWithConfirmation pub letter timeout answers = Some (pc, trace) →
  PublishWithConfirmation pub letter timeout (without isPoll answers)
  = Some (pc, without isSleep trace).
Proof. unfold PublishWithConfirmation. apply run_without_polls. Qed.

(** X6.  [PublishWithConfirmationError] is [PublishWithConfirmation]
    with the receipt turned into the result: on the same answers it makes
    the same calls in the same order, except that it hands nothing to
    [publishReceipt], and it returns the error that the receipt of
    [PublishWithConfirmation] carries (nil for a success). *)
Theorem PublishWithConfirmationError_as_PublishWithConfirmation
    pub letter timeout answers :
  PublishWithConfirmationError pub letter timeout answers
  = (λ r, (errorPoint r.1 (receipts r.2), without isReceipt r.2))
    <$> PublishWithConfirmation pub letter timeout answers.
Proof.
  unfold PublishWithConfirmationError, PublishWithConfirmation.
  apply (run_error_variant pub letter _ AtAcquire). reflexivity.
Qed.

(** X7.  When the [select] of [PublishWithConfirmation] takes a
    positive confirmation, the call hands [publishReceipt] the success
    for the letter, returns the channel it holds with [erred = false], and
    returns; that success is the only receipt of the call. *)
Theorem PublishWithConfirmation_ack
    pub letter timeout answers rest chanHost trace tag :
  PublishWithConfirmation pub letter timeout answers = Some (AtSelect chanHost, trace) →
  PublishWithConfirmation pub letter timeout
    (answers ++ Selected (Confirmation true tag) :: rest)
  = Some (Returned (),
          trace ++ [GoPublishReceipt (publishReceipt letter None);
                    ReturnChannel (Some chanHost) false])
  ∧ receipts (trace ++ [GoPublishReceipt (publishReceipt letter None);
                        ReturnChannel (Some chanHost) false])
    = [publishReceipt letter None]
  ∧ publishReceipt letter None
    = {| RLetterID := LetterID letter; Success := true; Error := None;
         FailedLetter := None |}.
Proof.
  unfold PublishWithConfirmation. intros H. split; [|split; [|reflexivity]].
  - rewrite (run_app _ _ _ _ _ _ H). destruct rest; reflexivity.
  - destruct (run_receipts _ _ _ _ _ _ _ H eq_refl) as [(e & _ & Hr)|[Hr _]];
      [discriminate Hr|].
    unfold receipts in *. rewrite omap_app, Hr. reflexivity.
Qed.

(** ** PublishWithError (lines 113-145) *)

(** As [Publish], but a failed acquisition is returned and not followed
    by [ReturnChannel], and the outcome of the submission is returned. *)
Definition PublishWithError (pub : Publisher) (letter : Letter) (skipReceipt : bool)
    (acquired : ChannelHost + error) (submitted : option error)
    : option error * list Call :=
  match acquired with
  | inr err => (Some err, [GetChannelFromPool])
  | inl chanHost =>
      (submitted,
       [GetChannelFromPool; submit pub chanHost letter]
       ++ (if skipReceipt then []
           else [GoPublishReceipt (publishReceipt letter submitted)])
       ++ [ReturnChannel (Some chanHost) (bool_decide (submitted ≠ None))])
  end.

(** X8.  [PublishWithError] makes the calls of [Publish], except that
    after a failed acquisition it does not call [ReturnChannel] with the
    nil host.  It returns nil exactly when a channel was acquired and the
    submission on it succeeded, and a receipt it emits carries the error
    it returns. *)
Theorem PublishWithError_as_Publish pub letter skipReceipt acquired submitted :
  Publish pub letter skipReceipt acquired submitted
  = (PublishWithError pub letter skipReceipt acquired submitted).2
    ++ match acquired with inr _ => [ReturnChannel None true] | inl _ => [] end
  ∧ ((PublishWithError pub letter skipReceipt acquired submitted).1 = None
     ↔ ∃ chanHost, acquired = inl chanHost ∧ submitted = None)
  ∧ Forall (λ r, Error r = (PublishWithError pub letter skipReceipt acquired submitted).1)
      (receipts (PublishWithError pub letter skipReceipt acquired submitted).2).
Proof.
  destruct acquired as [h|err]; simpl.
  - split; [|split].
    + rewrite (right_id_L [] (++)). reflexivity.
    + split; [eauto | intros (? & _ & ?); assumption].
    + destruct skipReceipt; simpl; [constructor|].
      constructor; [|constructor]. destruct submitted; reflexivity.
  - split; [reflexivity|]. split; [|constructor].
    split; [discriminate | intros (? & ? & _); discriminate].
Qed.

(** ** PublishWithConfirmationContext (lines 328-388) and
       PublishWithConfirmationContextError (lines 394-450) *)

Definition contextError (letter : Letter) : error :=
  errorString ("publish confirmation for LetterID: "
               +:+ UUID_String (LetterID letter)
               +:+ " wasn't received before context expired - recommend retry/requeue").

(** The machines of the two functions.  Their [select] has [ctx.Done()]
    where that of [PublishWithConfirmation] has the timer: the answer
    [Selected TimedOut] stands for the first case of the [select] here
    too. *)
Definition stepConfirmationContext (pub : Publisher) (letter : Letter)
    (pc : PC unit) (a : Answer) : option (PC unit * list Call) :=
  match pc, a with
  | AtAcquire, GotChannel (inr err) =>
      Some (Returned (),
            [GetChannelFromPool;
             GoPublishReceipt (publishReceipt letter (Some (acquireError letter err)))])
  | AtAcquire, GotChannel (inl chanHost) =>
      Some (AtPublish chanHost, [GetChannelFromPool; FlushConfirms chanHost])
  | AtPublish chanHost, Published (Some _) =>
      Some (AtAcquire,
            [submit pub chanHost letter; ReturnChannel (Some chanHost) true])
  | AtPublish chanHost, Published None =>
      Some (AtSelect chanHost, [submit pub chanHost letter])
  | AtSelect chanHost, Selected TimedOut =>
      Some (Returned (),
            [GoPublishReceipt (publishReceipt letter (Some (contextError letter)));
             ReturnChannel (Some chanHost) false])
  | AtSelect chanHost, Selected (Confirmation false _) =>
      Some (AtPublish chanHost, [])
  | AtSelect chanHost, Selected (Confirmation true _) =>
      Some (Returned (),
            [GoPublishReceipt (publishReceipt letter None);
             ReturnChannel (Some chanHost) false])
  | AtSelect chanHost, Selected Default =>
      Some (AtSelect chanHost, [Sleep (Millisecond * 1)%Z])
  | _, _ => None
  end.

Definition stepConfirmationContextError (pub : Publisher) (letter : Letter)
    (pc : PC (option error)) (a : Answer) : option (PC (option error) * list Call) :=
  match pc, a with
  | AtAcquire, GotChannel (inr err) =>
      Some (Returned (Some (acquireError letter err)), [GetChannelFromPool])
  | AtAcquire, GotChannel (inl chanHost) =>
      Some (AtPublish chanHost, [GetChannelFromPool; FlushConfirms chanHost])
  | AtPublish chanHost, Published (Some _) =>
      Some (AtAcquire,
            [submit pub chanHost letter; ReturnChannel (Some chanHost) true])
  | AtPublish chanHost, Published None =>
      Some (AtSelect chanHost, [submit pub chanHost letter])
  | AtSelect chanHost, Selected TimedOut =>
      Some (Returned (Some (contextError letter)),
            [ReturnChannel (Some chanHost) false])
  | AtSelect chanHost, Selected (Confirmation false _) =>
      Some (AtPublish chanHost, [])
  | AtSelect chanHost, Selected (Confirmation true _) =>
      Some (Returned None, [ReturnChannel (Some chanHost) false])
  | AtSelect chanHost, Selected Default =>
      Some (AtSelect chanHost, [Sleep (Millisecond * 1)%Z])
  | _, _ => None
  end.

Definition PublishWithConfirmationContext (pub : Publisher) (letter : Letter)
    (answers : list Answer) : option (PC unit * list Call) :=
  run (stepConfirmationContext pub letter) AtAcquire answers.

Definition PublishWithConfirmationContextError (pub : Publisher) (letter : Letter)
    (answers : list Answer) : option (PC (option error) * list Call) :=
  run (stepConfirmationContextError pub letter) AtAcquire answers.

Global Instance error_eq_dec : EqDecision error.
Proof. solve_decision. Defined.

(** What a call of the timeout variants becomes in the context
    variants: no timer is started, and the failure for the elapsed timeout
    is the failure for the expired context. *)
Definition expired (letter : Letter) (e : option error) : option error :=
  if decide (e = Some (timeoutError letter)) then Some (contextError letter) else e.

Definition inContext (letter : Letter) (c : Call) : list Call :=
  match c with
  | TimeAfter _ => []
  | GoPublishReceipt r => [GoPublishReceipt (publishReceipt letter (expired letter (Error r)))]
  | _ => [c]
  end.

Definition resultInContext (letter : Letter) (pc : PC (option error)) : PC (option error) :=
  match pc with
  | Returned e => Returned (expired letter e)
  | _ => pc
  end.

Lemma timeoutError_not_acquireError letter err :
  acquireError letter err ≠ timeoutError letter.
Proof. discriminate. Qed.

Lemma run_in_context pub letter timeout pc answers :
  run (stepConfirmationContext pub letter) pc answers
  = (λ r, (r.1, r.2 ≫= inContext letter))
    <$> run (stepConfirmation pub letter timeout) pc answers.
Proof.
  revert pc. induction answers as [|a rest IH]; intros pc; [reflexivity|].
  destruct pc as [| h | h | []]; destruct a as [[h'|err]|[err|]|[|[] tag|]];
    try reflexivity;
    cbn [run stepConfirmation stepConfirmationContext];
    rewrite ?IH, ?run_Returned;
    try (destruct (run (stepConfirmation pub letter timeout) _ rest) as [[f t]|];
         reflexivity).
  all: cbn [fmap option_fmap option_map fst snd app mbind list_bind inContext
              publishReceipt Error];
    unfold expired; rewrite ?decide_True by reflexivity;
    rewrite ?decide_False by discriminate; reflexivity.
Qed.

Lemma run_error_in_context pub letter timeout pc answers :
  isReturned pc = false →
  run (stepConfirmationContextError pub letter) pc answers
  = (λ r, (resultInContext letter r.1, without isTimer r.2))
    <$> run (stepConfirmationError pub letter timeout) pc answers.
Proof.
  revert pc. induction answers as [|a rest IH]; intros pc Hpc.
  - destruct pc; try discriminate Hpc; reflexivity.
  - destruct pc as [| h | h | r]; [| | | discriminate Hpc];
      destruct a as [[h'|err]|[err|]|[|[] tag|]]; try reflexivity;
      cbn [run stepConfirmationError stepConfirmationContextError];
      rewrite ?run_Returned; rewrite ?IH by reflexivity;
      try (destruct (run (stepConfirmationError pub letter timeout) _ rest) as [[f t]|];
           reflexivity).
    all: cbn [fmap option_fmap option_map fst snd app resultInContext];
      unfold expired; rewrite ?decide_True by reflexivity;
      rewrite ?decide_False by discriminate; reflexivity.
Qed.

(** X9.  [PublishWithConfirmationContext] is [PublishWithConfirmation]
    without the timer: on the same answers, with [ctx.Done()] in the place
    of the timer, it reaches the same program point and makes the same
    calls in the same order, except that it starts no timer and that the
    failure for the elapsed timeout is the failure for the expired
    context. *)
Theorem PublishWithConfirmationContext_as_PublishWithConfirmation
    pub letter timeout answers :
  PublishWithConfirmationContext pub letter answers
  = (λ r, (r.1, r.2 ≫= inContext letter))
    <$> PublishWithConfirmation pub letter timeout answers.
Proof. apply run_in_context. Qed.

(** X10.  [PublishWithConfirmationContextError] is
    [PublishWithConfirmationError] without the timer: on the same
    answers it makes the same calls but for [time.After], and returns the
    same result, the error for the elapsed timeout being the error for
    the expired context. *)
Theorem PublishWithConfirmationContextError_as_PublishWithConfirmationError
    pub letter timeout answers :
  PublishWithConfirmationContextError pub letter answers
  = (λ r, (resultInContext letter r.1, without isTimer r.2))
    <$> PublishWithConfirmationError pub letter timeout answers.
Proof. apply run_error_in_context. reflexivity. Qed.

(** ** The transient paths *)

(** An [*amqp.Channel] outside the pool, as [GetTransientChannel] gives
    it: a handle, like a channel host. *)
Context (Channel : Type).

Inductive TransientCall : Type :=
| GetTransientChannel (ackable : bool)
| NotifyPublish (channel : Channel)
| TransientTimeAfter (d : Duration)
| TransientPublish (channel : Channel) (exchange key : string)
    (mandatory immediate : bool) (msg : Publishing)
| TransientClose (channel : Channel)
| TransientReceipt (receipt : PublishReceipt)
| TransientSleep (d : Duration).

Definition transientSubmit (pub : Publisher) (channel : Channel) (letter : Letter)
    : TransientCall :=
  TransientPublish channel
    (Exchange (LEnvelope letter)) (RoutingKey (LEnvelope letter))
    (Mandatory (LEnvelope letter)) (Immediate (LEnvelope letter))
    (publishing pub letter).

(** *** PublishWithTransient (lines 150-181) *)

(** How [channel.Close()] ends. *)
Inductive CloseOutcome : Type :=
| CloseReturns (err : option error)
| ClosePanics.

(** The deferred function of lines 156-161: it closes the channel, and
    its own deferred [recover] stops a panic of [Close]. *)
Definition closeRecovered (outcome : CloseOutcome) : Exec unit :=
  match (match outcome with
         | CloseReturns _ => Ret ()
         | ClosePanics => Panics
         end) with
  | Panics => Ret ()
  | r => r
  end.

Definition PublishWithTransient (pub : Publisher) (letter : Letter)
    (acquired : Channel + error) (submitted : option error) (closing : CloseOutcome)
    : Exec (option error) * list TransientCall :=
  match acquired with
  | inr err =>
      (Ret (Some (wrapError ("publish failed: " +:+ Error_ err) err)),
       [GetTransientChannel false])
  | inl channel =>
      (match closeRecovered closing with
       | Ret _ => Ret submitted
       | Panics => Panics
       | Blocks => Blocks
       end,
       [GetTransientChannel false; transientSubmit pub channel letter;
        TransientClose channel])
  end.

(** *** PublishWithConfirmationTransient (lines 457-526) *)

Inductive TransientAnswer : Type :=
| GotTransientChannel (r : Channel + error)
| TransientPublished (err : option error)
| TransientSelected (c : SelectCase).

(** Program points: the head of the outer [for] (line 465), the label
    [Publish] (line 473), the [select] (line 503), returned. *)
Inductive TransientPC : Type :=
| TAcquire
| TPublish (channel : Channel)
| TSelect (channel : Channel)
| TReturned.

(** The error of line 505: the verb d prints the duration as its number
    of nanoseconds. *)
Definition transientTimeoutError (letter : Letter) (timeout : Duration) : error :=
  errorString ("publish confirmation for LetterID: "
               +:+ UUID_String (LetterID letter)
               +:+ " wasn't received in a timely manner ("
               +:+ pretty timeout
               +:+ "ms) - recommend retry/requeue").

Definition stepTransient (pub : Publisher) (sleepOnErrorInterval : Duration)
    (letter : Letter) (timeout : Duration) (pc : TransientPC) (a : TransientAnswer)
    : option (TransientPC * list TransientCall) :=
  match pc, a with
  | TAcquire, GotTransientChannel (inr err) =>
      Some (TReturned,
            [GetTransientChannel true;
             TransientReceipt (publishReceipt letter (Some (acquireError letter err)))])
  | TAcquire, GotTransientChannel (inl channel) =>
      Some (TPublish channel, [GetTransientChannel true; NotifyPublish channel])
  | TPublish channel, TransientPublished (Some _) =>
      Some (TAcquire,
            [TransientTimeAfter timeout; transientSubmit pub channel letter;
             TransientClose channel]
            ++ (if decide (sleepOnErrorInterval < 0)%Z
                then [TransientSleep sleepOnErrorInterval] else []))
  | TPublish channel, TransientPublished None =>
      Some (TSelect channel,
            [TransientTimeAfter timeout; transientSubmit pub channel letter])
  | TSelect channel, TransientSelected TimedOut =>
      Some (TReturned,
            [TransientReceipt
               (publishReceipt letter (Some (transientTimeoutError letter timeout)));
             TransientClose channel])
  | TSelect channel, TransientSelected (Confirmation false _) =>
      Some (TPublish channel, [])
  | TSelect channel, TransientSelected (Confirmation true _) =>
      Some (TReturned,
            [TransientReceipt (publishReceipt letter None); TransientClose channel])
  | TSelect channel, TransientSelected Default =>
      Some (TSelect channel, [TransientSleep (Millisecond * 4)%Z])
  | _, _ => None
  end.

Fixpoint runTransient (step : TransientPC → TransientAnswer
                              → option (TransientPC * list TransientCall))
    (pc : TransientPC) (answers : list TransientAnswer)
    : option (TransientPC * list TransientCall) :=
  match answers with
  | [] => Some (pc, [])
  | a :: rest =>
      match pc with
      | TReturned => Some (pc, [])
      | _ =>
          match step pc a with
          | None => None
          | Some (pc', calls) =>
              match runTransient step pc' rest with
              | None => None
              | Some (final, trace) => Some (final, calls ++ trace)
              end
          end
      end
  end.

Definition PublishWithConfirmationTransient (pub : Publisher)
    (sleepOnErrorInterval : Duration) (letter : Letter) (timeout : Duration)
    (answers : list TransientAnswer) : option (TransientPC * list TransientCall) :=
  let timeout := effectiveTimeout pub timeout in
  runTransient (stepTransient pub sleepOnErrorInterval letter timeout) TAcquire answers.

Definition opened (trace : list TransientCall) : list Channel :=
  omap (λ c, match c with NotifyPublish ch => Some ch | _ => None end) trace.

Definition closes (trace : list TransientCall) : list Channel :=
  omap (λ c, match c with TransientClose ch => Some ch | _ => None end) trace.

Definition transientReceipts (trace : list TransientCall) : list PublishReceipt :=
  omap (λ c, match c with TransientReceipt r => Some r | _ => None end) trace.

Definition sleeps (trace : list TransientCall) : list Duration :=
  omap (λ c, match c with TransientSleep d => Some d | _ => None end) trace.

Definition transientHolding (pc : TransientPC) : list Channel :=
  match pc with
  | TPublish ch | TSelect ch => [ch]
  | _ => []
  end.

Lemma runTransient_TReturned stp answers :
  runTransient stp TReturned answers = Some (TReturned, []).
Proof. destruct answers; reflexivity. Qed.

Lemma runTransient_cons stp pc pc' a rest trace :
  pc ≠ TReturned →
  runTransient stp pc (a :: rest) = Some (pc', trace) →
  ∃ pc1 calls t,
    stp pc a = Some (pc1, calls)
    ∧ runTransient stp pc1 rest = Some (pc', t)
    ∧ trace = calls ++ t.
Proof.
  intros Hpc H. simpl in H.
  destruct pc as [| ch | ch |]; [| | | congruence].
  all: destruct (stp _ a) as [[pc1 calls]|]; [|discriminate];
    destruct (runTransient stp pc1 rest) as [[f t]|] eqn:E; [|discriminate];
    injection H as <- <-; eauto 6.
Qed.

(** What one step of [PublishWithConfirmationTransient] can be. *)
Lemma stepTransient_inv pub interval letter timeout pc a pc1 calls :
  stepTransient pub interval letter timeout pc a = Some (pc1, calls) →
  (∃ err, pc = TAcquire ∧ pc1 = TReturned
      ∧ calls = [GetTransientChannel true;
                 TransientReceipt (publishReceipt letter (Some (acquireError letter err)))])
  ∨ (∃ ch, pc = TAcquire ∧ pc1 = TPublish ch
      ∧ calls = [GetTransientChannel true; NotifyPublish ch])
  ∨ (∃ ch, pc = TPublish ch ∧ pc1 = TAcquire
      ∧ calls = [TransientTimeAfter timeout; transientSubmit pub ch letter;
                 TransientClose ch]
                ++ (if decide (interval < 0)%Z then [TransientSleep interval] else []))
  ∨ (∃ ch, pc = TPublish ch ∧ pc1 = TSelect ch
      ∧ calls = [TransientTimeAfter timeout; transientSubmit pub ch letter])
  ∨ (∃ ch e, pc = TSelect ch ∧ pc1 = TReturned
      ∧ calls = [TransientReceipt (publishReceipt letter e); TransientClose ch])
  ∨ (∃ ch, pc = TSelect ch ∧ pc1 = TPublish ch ∧ calls = [])
  ∨ (∃ ch, pc = TSelect ch ∧ pc1 = TSelect ch
      ∧ calls = [TransientSleep (Millisecond * 4)%Z]).
Proof.
  intros H.
  destruct pc as [| ch | ch |]; destruct a as [[ch'|err]|[err|]|[|[] tag|]];
    try discriminate H; injection H as <- <-.
  - right; left; repeat eexists.
  - left; repeat eexists.
  - right; right; left; repeat eexists.
  - right; right; right; left; repeat eexists.
  - right; right; right; right; left.
    exists ch, (Some (transientTimeoutError letter timeout)). repeat split.
  - right; right; right; right; left. exists ch, None. repeat split.
  - right; right; right; right; right; left; repeat eexists.
  - right; right; right; right; right; right; repeat eexists.
Qed.

Ltac stepTransient_cases H :=
  apply stepTransient_inv in H
    as [(? & -> & -> & ->)|[(? & -> & -> & ->)|[(? & -> & -> & ->)
       |[(? & -> & -> & ->)|[(? & ? & -> & -> & ->)|[(? & -> & -> & ->)
       |(? & -> & -> & ->)]]]]]].

Lemma TransientPC_returned_dec (pc : TransientPC) : pc = TReturned ∨ pc ≠ TReturned.
Proof. destruct pc; auto; right; discriminate. Qed.

(** The channels opened so far are those closed so far and the one held. *)
Lemma runTransient_channels pub interval letter timeout pc answers pc' trace :
  runTransient (stepTransient pub interval letter timeout) pc answers = Some (pc', trace) →
  transientHolding pc ++ opened trace = closes trace ++ transientHolding pc'.
Proof.
  revert pc trace. induction answers as [|a rest IH]; intros pc trace H.
  - simpl in H. simplify_eq. simpl. rewrite (right_id_L [] (++)). reflexivity.
  - destruct (TransientPC_returned_dec pc) as [->|Hpc].
    + rewrite runTransient_TReturned in H. simplify_eq. reflexivity.
    + apply runTransient_cons in H as (pc1 & calls & t & Hstep & Hrun & ->);
        [|exact Hpc].
      specialize (IH _ _ Hrun).
      unfold opened, closes. rewrite !omap_app. fold (opened t). fold (closes t).
      stepTransient_cases Hstep; simpl in *;
        try (rewrite runTransient_TReturned in Hrun; simplify_eq; reflexivity);
        try exact IH.
      destruct (decide (interval < 0)%Z); simpl; rewrite IH; reflexivity.
Qed.

(** A receipt has been handed over exactly when the call has returned. *)
Lemma runTransient_receipts pub interval letter timeout pc answers pc' trace :
  runTransient (stepTransient pub interval letter timeout) pc answers = Some (pc', trace) →
  pc ≠ TReturned →
  (pc' = TReturned → ∃ e, transientReceipts trace = [publishReceipt letter e])
  ∧ (pc' ≠ TReturned → transientReceipts trace = []).
Proof.
  revert pc trace. induction answers as [|a rest IH]; intros pc trace H Hpc.
  - simpl in H. simplify_eq. split; [congruence | reflexivity].
  - apply runTransient_cons in H as (pc1 & calls & t & Hstep & Hrun & ->);
      [|exact Hpc].
    unfold transientReceipts. rewrite omap_app. fold (transientReceipts t).
    stepTransient_cases Hstep;
      try (rewrite runTransient_TReturned in Hrun; simplify_eq;
           split; [intros _; eexists; reflexivity | congruence]);
      simpl;
      try (apply (IH _ _ Hrun); discriminate).
    destruct (decide (interval < 0)%Z); simpl;
      apply (IH _ _ Hrun); discriminate.
Qed.

(** A sleep is the 4ms of the poll unless the error interval is negative. *)
Lemma runTransient_sleeps pub interval letter timeout pc answers pc' trace :
  runTransient (stepTransient pub interval letter timeout) pc answers = Some (pc', trace) →
  (0 ≤ interval)%Z →
  Forall (λ d, d = (Millisecond * 4)%Z) (sleeps trace).
Proof.
  revert pc trace. induction answers as [|a rest IH]; intros pc trace H Hi.
  - simpl in H. simplify_eq. constructor.
  - destruct (TransientPC_returned_dec pc) as [->|Hpc].
    + rewrite runTransient_TReturned in H. simplify_eq. constructor.
    + apply runTransient_cons in H as (pc1 & calls & t & Hstep & Hrun & ->);
        [|exact Hpc].
      specialize (IH _ _ Hrun Hi).
      unfold sleeps. rewrite omap_app. fold (sleeps t).
      stepTransient_cases Hstep; simpl; try exact IH.
      * destruct (decide (interval < 0)%Z); [lia|]. exact IH.
      * constructor; [reflexivity | exact IH].
Qed.

(** X11.  [PublishWithConfirmationTransient] leaks no channel and emits
    one receipt: when it has returned, the transient channels it has
    closed are those it has opened, in the same order and each once, and
    it has handed [publishReceipt] exactly one receipt, for its letter. *)
Theorem PublishWithConfirmationTransient_closes_every_channel
    pub sleepOnErrorInterval letter timeout answers trace :
  PublishWithConfirmationTransient pub sleepOnErrorInterval letter timeout answers
  = Some (TReturned, trace) →
  closes trace = opened trace
  ∧ ∃ e, transientReceipts trace = [publishReceipt letter e].
Proof.
  unfold PublishWithConfirmationTransient. intros H. split.
  - pose proof (runTransient_channels _ _ _ _ _ _ _ _ H) as Hc. simpl in Hc.
    rewrite (right_id_L [] (++)) in Hc. symmetry. exact Hc.
  - apply (runTransient_receipts _ _ _ _ _ _ _ _ H); [discriminate | reflexivity].
Qed.

(** X12.  In [PublishWithConfirmationTransient] the configured
    sleep-on-error interval never delays a retry: the pause after a
    failed submission is taken only when the interval is negative (line
    495), so with an interval of zero or more every sleep of the call is
    the 4ms between two polls of the [select]. *)
Theorem PublishWithConfirmationTransient_never_backs_off
    pub sleepOnErrorInterval letter timeout answers pc trace :
  PublishWithConfirmationTransient pub sleepOnErrorInterval letter timeout answers
  = Some (pc, trace) →
  (0 ≤ sleepOnErrorInterval)%Z →
  Forall (λ d, d = (Millisecond * 4)%Z) (sleeps trace).
Proof. unfold PublishWithConfirmationTransient. apply runTransient_sleeps. Qed.

(** ** The letters queue, continued *)

(** The channel with [ls] appended to what it buffers. *)
Definition enqueue {A : Type} (c : chan A) (ls : list A) : chan A :=
  {| buf := buf c ++ ls; cap := cap c; closed := closed c |}.

Lemma safeSend_inv sh letter pick ok sh' :
  safeSend sh letter pick = Ret (ok, sh') →
  (ok = false ∧ sh' = sh)
  ∨ (ok = true ∧ closed (letters sh) = false
     ∧ length (buf (letters sh)) < cap (letters sh)
     ∧ sh' = set_letters (push (letters sh) letter) sh).
Proof.
  unfold safeSend, safeSendSelect, canSend.
  destruct (closed (letters sh)) eqn:Hc.
  - rewrite orb_true_r.
    destruct (select2 _ _ _) as [[]|]; intros H; simplify_eq; left; split; reflexivity.
  - rewrite orb_false_r.
    destruct (bool_decide (length (buf (letters sh)) < cap (letters sh))) eqn:Hr.
    + apply bool_decide_eq_true_1 in Hr.
      destruct (select2 _ _ _) as [[]|]; intros H; simplify_eq; auto.
    + destruct (canRecv (shutdownSignal sh)); simpl; intros H; simplify_eq.
      left; split; reflexivity.
Qed.

Lemma set_letters_enqueue_nil (sh : Shared) :
  set_letters (enqueue (letters sh) []) sh = sh.
Proof.
  destruct sh as [? [] ? ? ? ? ?]. unfold set_letters, enqueue. simpl.
  rewrite (right_id_L [] (++)). reflexivity.
Qed.

Lemma set_letters_enqueue_push (sh : Shared) (letter : Letter) (ls : list Letter) :
  set_letters (enqueue (letters (set_letters (push (letters sh) letter) sh)) ls)
    (set_letters (push (letters sh) letter) sh)
  = set_letters (enqueue (letters sh) (letter :: ls)) sh.
Proof.
  unfold set_letters, enqueue, push. simpl.
  rewrite <- (assoc_L (++)). reflexivity.
Qed.

(** X13.  [QueueLetters] is not all or nothing.  When it returns, what
    it has done to the publisher is to append to the letters queue the
    first [k] of its letters, in their order: all of them when it returns
    true, and fewer than all when it returns false, the letters before the
    refused one staying queued. *)
Theorem QueueLetters_enqueues_prefix sh ls picks ok sh' :
  QueueLetters sh ls picks = Ret (ok, sh') →
  ∃ k, sh' = set_letters (enqueue (letters sh) (take k ls)) sh
       ∧ if ok then k = length ls else k < length ls.
Proof.
  revert sh picks. induction ls as [|letter rest IH]; intros sh picks H; simpl in H.
  - simplify_eq. exists 0. split; [|reflexivity].
    symmetry. apply set_letters_enqueue_nil.
  - destruct (safeSend sh letter (picks 0)) as [[[] sh1]| |] eqn:E; try discriminate H.
    + apply safeSend_inv in E as [[? _]|(_ & _ & _ & ->)]; [discriminate|].
      destruct (IH _ _ H) as (k & -> & Hk).
      exists (S k). rewrite set_letters_enqueue_push. split; [reflexivity|].
      simpl. destruct ok; lia.
    + apply safeSend_inv in E as [[_ ->]|(? & _)]; [|discriminate].
      simplify_eq. exists 0. simpl. split; [|lia].
      symmetry. apply set_letters_enqueue_nil.
Qed.

(** X14.  While the shutdown signal is open, [QueueLetter] never
    returns false: it queues the letter and returns true when the letters
    queue has room, and it blocks when the queue is full. *)
Theorem QueueLetter_before_Shutdown sh letter pick :
  closed (shutdownSignal sh) = false →
  buf (shutdownSignal sh) = [] →
  closed (letters sh) = false →
  QueueLetter sh letter pick
  = if bool_decide (length (buf (letters sh)) < cap (letters sh))
    then Ret (true, set_letters (push (letters sh) letter) sh)
    else Blocks.
Proof.
  intros Hs Hb Hl. unfold QueueLetter, safeSend, safeSendSelect, canRecv, canSend.
  rewrite Hs, Hb, Hl, orb_false_r.
  rewrite (bool_decide_eq_false_2 (@nil unit ≠ []))
    by (intros Hne; apply Hne; reflexivity).
  simpl. destruct (bool_decide (length (buf (letters sh)) < cap (letters sh)));
    reflexivity.
Qed.

(** ** The publisher with its goroutines, continued *)

(** The channels of the publisher are as [NewPublisher] made them, but
    for what they buffer and for the shutdown signal being closed. *)
Definition channelsOk (sh : Shared) : Prop :=
  buf (shutdownSignal sh) = []
  ∧ closed (letters sh) = false
  ∧ cap (letters sh) = 1000
  ∧ length (buf (letters sh)) ≤ 1000
  ∧ closed (publishReceipts sh) = false
  ∧ cap (publishReceipts sh) = 1000
  ∧ length (buf (publishReceipts sh)) ≤ 1000
  ∧ Forall (λ c, closed c = false) (semaphores sh).

(** A goroutine at its deferred [wg.Done()]. *)
Definition atDone (g : Goroutine) : bool :=
  match g with
  | AutoPublishingLoop LDone | Attempt _ _ ADone | ReceiptEmission _ EDone => true
  | _ => false
  end.

(** A receipt as [publishReceipt] builds them. *)
Definition built (r : PublishReceipt) : Prop :=
  ∃ l e, r = publishReceipt l e.

Definition emissionBuilt (g : Goroutine) : Prop :=
  match g with
  | ReceiptEmission r _ => built r
  | _ => True
  end.

Definition isLoop (g : Goroutine) : nat :=
  match g with
  | AutoPublishingLoop _ => 1
  | _ => 0
  end.

(** The events of goroutines that come after [n] others. *)
Definition shift (n : nat) (ev : Event) : Event :=
  match ev with
  | Move i o => Move (n + i) o
  | _ => ev
  end.

(** Two calls of [StartAutoPublishing] that both read the flag (line
    536) before either sets it (line 537), made when [n] goroutines are
    there: both go on to start a loop. *)
Definition doubleStart (n : nat) (o : Oracle) : list Event :=
  [Invoke InvokeStartAutoPublishing; Invoke InvokeStartAutoPublishing;
   Move n o; Move (n + 1) o;
   Move n o; Move (n + 1) o;
   Move n o; Move (n + 1) o;
   Move n o; Move (n + 1) o].

(** Case analysis on a step of a goroutine, [safeSend] kept folded. *)
Ltac goStep_cases_folded H :=
  unfold goStep, publishingStep, select2, wgDone, wgAdd in H;
  repeat case_match; simplify_eq.

Lemma goStep_channelsOk pub sh g o sh' g' started :
  channelsOk sh →
  goStep pub sh g o = Some (sh', g', started) →
  channelsOk sh'.
Proof.
  intros (H1 & H2 & H3 & H4 & H5 & H6 & H7 & H8) H.
  goStep_cases_folded H;
    repeat match goal with
           | E : safeSend _ _ _ = Ret _ |- _ =>
               apply safeSend_inv in E as [[? ?]|(? & ? & ? & ?)]; simplify_eq
           end;
    repeat match goal with
           | E : bool_decide _ = true |- _ => apply bool_decide_eq_true_1 in E
           end;
    repeat split; simpl; try assumption;
    first [ rewrite length_app; simpl; lia
          | apply Forall_app; split; [assumption | repeat constructor]
          | apply Forall_insert; [assumption|]; simpl;
            eapply (Forall_lookup_1 _ _ _ _ H8); eassumption
          | match goal with
            | E : buf (letters sh) = _ |- _ => rewrite E in *; simpl in *; lia
            end ].
Qed.

(** A step of the publisher is an invocation, a step of a goroutine, or
    the subscriber taking a receipt. *)
Lemma step_inv pub st ev st' :
  step pub st ev = Some st' →
  (∃ c, ev = Invoke c
        ∧ st' = {| shared := shared st; goroutines := goroutines st ++ [enter c] |})
  ∨ (∃ i o g sh' g' started,
        ev = Move i o
        ∧ goroutines st !! i = Some g
        ∧ goStep pub (shared st) g o = Some (sh', g', started)
        ∧ st' = {| shared := sh'; goroutines := <[i := g']> (goroutines st) ++ started |})
  ∨ (∃ r rest,
        ev = TakeReceipt
        ∧ buf (publishReceipts (shared st)) = r :: rest
        ∧ st' = {| shared := set_publishReceipts (pop (publishReceipts (shared st)))
                               (shared st);
                   goroutines := goroutines st |}).
Proof.
  intros H. destruct ev as [c | i o |]; simpl in H.
  - simplify_eq. left. eauto.
  - destruct (goroutines st !! i) as [g|] eqn:Hg; [|discriminate].
    destruct (goStep pub (shared st) g o) as [[[sh' g'] started]|] eqn:Hs; [|discriminate].
    simplify_eq. right; left. repeat eexists; eassumption.
  - destruct (buf (publishReceipts (shared st))) as [|r rest] eqn:E; [discriminate|].
    simplify_eq. right; right. eauto.
Qed.

(** A property of the states that every step keeps holds of every state
    the publisher can reach. *)
Lemma reachable_ind pub (P : System → Prop) :
  P initial →
  (∀ st ev st', P st → step pub st ev = Some st' → P st') →
  ∀ st, reachable pub st → P st.
Proof.
  intros H0 Hstep st [evs H].
  assert (Hgen : ∀ st0, P st0 → steps pub st0 evs = Some st → P st).
  { clear H. induction evs as [|ev evs IH]; intros st0 HP H; simpl in H.
    - simplify_eq. exact HP.
    - destruct (step pub st0 ev) as [st1|] eqn:E; [|discriminate].
      exact (IH _ (Hstep _ _ _ HP E) H). }
  exact (Hgen _ H0 H).
Qed.

Lemma reachable_channelsOk pub st : reachable pub st → channelsOk (shared st).
Proof.
  apply (reachable_ind pub (λ st, channelsOk (shared st))).
  - repeat split; simpl; try lia. constructor.
  - intros st0 ev st1 HP H.
    apply step_inv in H as [(c & -> & ->)|[(i & o & g & sh' & g' & started & -> & Hg & Hs & ->)
                            |(r & rest & -> & Hb & ->)]]; simpl.
    + exact HP.
    + exact (goStep_channelsOk _ _ _ _ _ _ _ HP Hs).
    + destruct HP as (H1 & H2 & H3 & H4 & H5 & H6 & H7 & H8).
      repeat split; simpl; try assumption. rewrite Hb in *. simpl in *. lia.
Qed.

Lemma goStep_built pub sh g o sh' g' started :
  Forall built (buf (publishReceipts sh)) →
  emissionBuilt g →
  goStep pub sh g o = Some (sh', g', started) →
  Forall built (buf (publishReceipts sh'))
  ∧ emissionBuilt g'
  ∧ Forall emissionBuilt started.
Proof.
  intros Hb Hg H.
  goStep_cases_folded H;
    repeat match goal with
           | E : safeSend _ _ _ = Ret _ |- _ =>
               apply safeSend_inv in E as [[? ?]|(? & ? & ? & ?)]; simplify_eq
           end;
    repeat match goal with
           | E : stepConfirmation _ _ _ _ _ = Some _ |- _ =>
               apply stepConfirmation_receipts in E as [(? & -> & _)|[-> _]]
           end;
    simpl in *;
    repeat split; try assumption; try exact I;
    try (repeat constructor; fail);
    try (repeat constructor; simpl; eexists _, _; reflexivity).
  apply Forall_app. split; [assumption|]. repeat constructor. assumption.
Qed.

Lemma reachable_built pub st :
  reachable pub st →
  Forall built (buf (publishReceipts (shared st)))
  ∧ Forall emissionBuilt (goroutines st).
Proof.
  apply (reachable_ind pub
           (λ st, Forall built (buf (publishReceipts (shared st)))
                  ∧ Forall emissionBuilt (goroutines st))).
  - split; constructor.
  - intros st0 ev st1 [Hb Hg] H.
    apply step_inv in H as [(c & -> & ->)|[(i & o & g & sh' & g' & started & -> & Hi & Hs & ->)
                            |(r & rest & -> & Hr & ->)]]; simpl.
    + split; [exact Hb|]. apply Forall_app. split; [exact Hg|].
      constructor; [destruct c; exact I | constructor].
    + destruct (goStep_built _ _ _ _ _ _ _ Hb (Forall_lookup_1 _ _ _ _ Hg Hi) Hs)
        as (Hb' & Hg' & Hst).
      split; [exact Hb'|]. apply Forall_app. split; [|exact Hst].
      apply Forall_insert; assumption.
    + split; [|exact Hg]. rewrite Hr in *. simpl. inversion Hb; assumption.
Qed.

Lemma step_frame pub sh gs pre ev st' :
  step pub {| shared := sh; goroutines := gs |} ev = Some st' →
  step pub {| shared := sh; goroutines := pre ++ gs |} (shift (length pre) ev)
  = Some {| shared := shared st'; goroutines := pre ++ goroutines st' |}.
Proof.
  intros H.
  apply step_inv in H as [(c & -> & ->)|[(i & o & g & sh' & g' & started & -> & Hi & Hs & ->)
                          |(r & rest & -> & Hr & ->)]]; simpl in *.
  - rewrite (assoc_L (++)). reflexivity.
  - rewrite lookup_app_r by lia.
    replace (length pre + i - length pre) with i by lia.
    rewrite Hi, Hs. rewrite insert_app_r, (assoc_L (++)). reflexivity.
  - rewrite Hr. reflexivity.
Qed.

Lemma steps_frame pub sh gs pre evs st' :
  steps pub {| shared := sh; goroutines := gs |} evs = Some st' →
  steps pub {| shared := sh; goroutines := pre ++ gs |} (shift (length pre) <$> evs)
  = Some {| shared := shared st'; goroutines := pre ++ goroutines st' |}.
Proof.
  revert sh gs. induction evs as [|ev evs IH]; intros sh gs H; simpl in H.
  - simplify_eq. reflexivity.
  - destruct (step pub {| shared := sh; goroutines := gs |} ev) as [[sh1 gs1]|] eqn:E;
      [|discriminate].
    rewrite fmap_cons. cbn [steps]. rewrite (step_frame _ _ _ pre _ _ E).
    apply (IH _ _ H).
Qed.

(** X15.  In every state the publisher can reach, the letters queue and
    the receipt stream are open and hold at most 1000 entries, nothing is
    buffered on the shutdown signal, and no semaphore is closed.  So the
    send of [safeSend] never panics: its [recover] is never needed. *)
Theorem channels_stay_open pub st letter p :
  reachable pub st →
  channelsOk (shared st)
  ∧ safeSendSelect (shared st) letter p ≠ Panics.
Proof.
  intros Hr. pose proof (reachable_channelsOk _ _ Hr) as Hok.
  split; [exact Hok|].
  destruct Hok as (_ & Hl & _).
  unfold safeSendSelect. rewrite Hl.
  destruct (select2 _ _ _) as [[]|]; discriminate.
Qed.

(** X16.  The WaitGroup counter never goes negative: in every state the
    publisher can reach, a goroutine that is at its deferred [wg.Done()]
    can take that step. *)
Theorem wg_Done_never_panics pub st i g o :
  reachable pub st →
  goroutines st !! i = Some g →
  atDone g = true →
  ∃ st', step pub st (Move i o) = Some st'
         ∧ wg (shared st) = S (wg (shared st')).
Proof.
  intros Hr Hg Hd. destruct (reachable_invariant _ _ Hr) as (Hwg & _ & _).
  assert (Hle : wgShare g ≤ wg (shared st)).
  { rewrite Hwg. apply sum_list_with_in. eapply list_elem_of_lookup_2, Hg. }
  simpl. rewrite Hg.
  destruct g as [| | | |[]|? ? []|? []|]; try discriminate Hd; simpl in *;
    unfold wgDone; destruct (wg (shared st)) as [|n]; try lia;
    eexists; split; reflexivity.
Qed.

(** X17.  Every receipt on the stream of [PublishReceipts()], in every
    state the publisher can reach, was built by [publishReceipt]: its
    [Success] is true exactly when its [Error] is nil, it has no
    [FailedLetter] when it is a success, and when it is a failure its
    [FailedLetter] is a letter with the [LetterID] of the receipt. *)
Theorem stream_receipts_are_built pub st r :
  reachable pub st →
  r ∈ buf (publishReceipts (shared st)) →
  (Success r = true ↔ Error r = None)
  ∧ (Error r = None → FailedLetter r = None)
  ∧ (Error r ≠ None → ∃ l, FailedLetter r = Some l ∧ LetterID l = RLetterID r).
Proof.
  intros Hr Hin. destruct (reachable_built _ _ Hr) as [Hb _].
  rewrite Forall_forall in Hb. destruct (Hb _ Hin) as (l & [e|] & ->); simpl.
  - repeat split; intros; try congruence. eauto.
  - repeat split; intros; congruence.
Qed.

(** X18.  [Shutdown] is final and cannot be repeated: once the shutdown
    signal is closed it stays closed whatever happens next, and a later
    call of [Shutdown] cannot get past its first statement, the close of
    an already closed channel (line 635). *)
Theorem Shutdown_is_final pub st evs st' :
  steps pub st evs = Some st' →
  closed (shutdownSignal (shared st)) = true →
  closed (shutdownSignal (shared st')) = true
  ∧ ∀ i shutdownPools o,
      goroutines st' !! i = Some (InShutdown shutdownPools HClose) →
      step pub st' (Move i o) = None.
Proof.
  intros H Hc. pose proof (steps_shutdownSignal _ _ _ _ H Hc) as Hc'.
  split; [exact Hc'|]. intros i b o Hg. simpl. rewrite Hg. simpl.
  rewrite Hc'. reflexivity.
Qed.

(** X19.  The flag of [StartAutoPublishing] does not prevent a double
    start, since it is read (line 536) and set (line 537) in two steps:
    from any state in which auto-publishing is not started, two calls
    that both read the flag before either sets it start two drain loops,
    each counted by the WaitGroup. *)
Theorem StartAutoPublishing_can_start_twice pub st o :
  autoStarted (shared st) = false →
  ∃ st', steps pub st (doubleStart (length (goroutines st)) o) = Some st'
         ∧ sum_list_with isLoop (goroutines st')
           = sum_list_with isLoop (goroutines st) + 2
         ∧ wg (shared st') = wg (shared st) + 2.
Proof.
  intros Ha. destruct st as [sh gs]. simpl in *.
  assert (Hsmall :
    steps pub {| shared := sh; goroutines := [] |} (doubleStart 0 o)
    = Some {| shared := set_wg (wg sh + 1 + 1) (set_autoStarted true sh);
              goroutines := [Finished None; Finished None;
                             AutoPublishingLoop LMake; AutoPublishingLoop LMake] |}).
  { destruct sh. simpl in *. subst. reflexivity. }
  pose proof (steps_frame _ _ _ gs _ _ Hsmall) as H.
  rewrite (right_id_L [] (++)) in H.
  replace (shift (length gs) <$> doubleStart 0 o) with (doubleStart (length gs) o) in H.
  2: { unfold doubleStart. simpl. rewrite Nat.add_0_r. reflexivity. }
  eexists. split; [exact H|]. simpl. split.
  - rewrite sum_list_with_app. simpl. lia.
  - lia.
Qed.

(** X20.  Once the shutdown signal is closed and the letters queue is
    empty, a drain loop at its [select] ends, whatever the runtime picks:
    it leaves [deliverLetters], resets the auto-started flag and gives its
    count back to the WaitGroup. *)
Theorem drain_loop_ends_after_shutdown pub st i sem o1 o2 o3 :
  reachable pub st →
  closed (shutdownSignal (shared st)) = true →
  buf (letters (shared st)) = [] →
  goroutines st !! i = Some (AutoPublishingLoop (LSelect sem)) →
  ∃ n, wg (shared st) = S n
       ∧ steps pub st [Move i o1; Move i o2; Move i o3]
         = Some {| shared := set_wg n (set_autoStarted false (shared st));
                   goroutines := <[i := Finished None]> (goroutines st) |}.
Proof.
  intros Hr Hc Hb Hg.
  destruct (reachable_channelsOk _ _ Hr) as (_ & Hl & _).
  destruct (reachable_invariant _ _ Hr) as (Hwg & _ & _).
  assert (Hle : 1 ≤ wg (shared st)).
  { rewrite Hwg.
    apply (sum_list_with_in (AutoPublishingLoop (LSelect sem)) wgShare).
    eapply list_elem_of_lookup_2, Hg. }
  destruct (wg (shared st)) as [|n] eqn:Ew; [lia|].
  exists n. split; [reflexivity|].
  assert (Hi : i < length (goroutines st)) by (eapply lookup_lt_Some, Hg).
  destruct st as [sh gs]. simpl in *.
  rewrite Hg. simpl. unfold canRecv. rewrite Hc, Hb, Hl, orb_true_r. simpl.
  rewrite (right_id_L [] (++)).
  rewrite list_lookup_insert_eq by exact Hi. simpl.
  rewrite (right_id_L [] (++)), list_insert_insert_eq.
  rewrite list_lookup_insert_eq by exact Hi. simpl.
  unfold wgDone. simpl. rewrite Ew.
  rewrite (right_id_L [] (++)), list_insert_insert_eq. reflexivity.
Qed.

Lemma sum_list_with_all_zero {A} (f : A → nat) (l : list A) :
  Forall (λ x, f x = 0) l → sum_list_with f l = 0.
Proof.
  induction 1 as [|x l Hx _ IH]; [reflexivity|].
  change (f x + sum_list_with f l = 0). lia.
Qed.

(** X21.  No permit is lost: in every state the publisher can reach, the
    permits taken from a semaphore are exactly those its loop holds
    between lines 563 and 565 and those held by the attempts that have
    not given theirs back; when none is held the semaphore is empty. *)
Theorem permits_are_held pub st sem :
  reachable pub st →
  permits (shared st) sem = sum_list_with (holds sem) (goroutines st)
  ∧ (Forall (λ g, holds sem g = 0) (goroutines st) → permits (shared st) sem = 0).
Proof.
  intros Hr. destruct (reachable_invariant _ _ Hr) as (_ & Hper & _).
  split; [apply Hper|]. intros Hall. rewrite Hper.
  apply sum_list_with_all_zero, Hall.
Qed.

(** [PublishWithTransient] closes the channel it opened, and what
    [Close] does never changes the result. *)
Lemma PublishWithTransient_closes pub letter channel submitted closing :
  PublishWithTransient pub letter (inl channel) submitted closing
  = (Ret submitted,
     [GetTransientChannel false; transientSubmit pub channel letter;
      TransientClose channel]).
Proof. destruct closing; reflexivity. Qed.

End Publisher.

Arguments GetChannelFromPool {UUID Table ChannelHost}.
Arguments FlushConfirms {UUID Table ChannelHost} chanHost.
Arguments TimeAfter {UUID Table ChannelHost} d.
Arguments ChannelPublish {UUID Table ChannelHost} chanHost exchange key mandatory immediate msg.
Arguments GoPublishReceipt {UUID Table ChannelHost} receipt.
Arguments ReturnChannel {UUID Table ChannelHost} chanHost erred.
Arguments Sleep {UUID Table ChannelHost} d.
Arguments submit {UUID Table ChannelHost} UUID_String pub chanHost letter.
Arguments publishReceipt {UUID Table} l e.
Arguments timeoutError {UUID Table} UUID_String letter.
Arguments GotChannel {ChannelHost} r.
Arguments Published {ChannelHost} err.
Arguments Selected {ChannelHost} c.
Arguments AtAcquire {ChannelHost R}.
Arguments AtPublish {ChannelHost R} chanHost.
Arguments AtSelect {ChannelHost R} chanHost.
Arguments Returned {ChannelHost R} r.
Arguments isReturned {ChannelHost R} pc.
Arguments PublishWithConfirmation {UUID Table ChannelHost} UUID_String pub letter timeout answers.
Arguments Publish {UUID Table ChannelHost} UUID_String pub letter skipReceipt acquired submitted.
Arguments receipts {UUID Table ChannelHost} trace.
Arguments submissions {UUID Table ChannelHost} trace.
Arguments returns {UUID Table ChannelHost} trace.
Arguments Emits {UUID Table ChannelHost} UUID_String pub letter _.
Arguments Ret {A} a.
Arguments closed {A} c.
Arguments push {A} c a.
Arguments set_letters {UUID Table} c sh.
Arguments shutdownSignal {UUID Table} s.
Arguments letters {UUID Table} s.
Arguments QueueLetter {UUID Table} sh letter pick.
Arguments QueueLetters {UUID Table} sh ls picks.
Arguments InShutdown {UUID Table ChannelHost} shutdownPools pc.
Arguments Finished {UUID Table ChannelHost} ok.
Arguments InvokeStartAutoPublishing {UUID Table}.
Arguments InvokeShutdown {UUID Table} shutdownPools.
Arguments InvokeQueueLetter {UUID Table} letter.
Arguments Invoke {UUID Table ChannelHost} c.
Arguments Move {UUID Table ChannelHost} i o.
Arguments shared {UUID Table ChannelHost} s.
Arguments goroutines {UUID Table ChannelHost} s.
Arguments initial {UUID Table ChannelHost}.
Arguments step {UUID Table ChannelHost} UUID_String pub st ev.
Arguments steps {UUID Table ChannelHost} UUID_String pub st evs.
Arguments reachable {UUID Table ChannelHost} UUID_String pub st.
Arguments spawned {UUID Table ChannelHost} g.
Arguments attemptsInFlight {UUID Table ChannelHost} sem st.

(** * A concrete publisher

    The scenario of the specification: letter 1 for exchange "ex" with
    routing key "rk" and body "hi", a publisher whose pool caches one
    channel and whose publish timeout is 50ms.  Ids are given by their
    text, channel hosts are numbered. *)

Definition demoTable : Type := list (string * string).

Definition demoPublisher : Publisher :=
  {| ApplicationName := "tcr";
     MaxCacheChannelCount := 1;
     publishTimeOutDuration := (50 * Millisecond)%Z |}.

Definition demoLetter : Letter string demoTable :=
  {| LetterID := "1";
     LEnvelope := {| Exchange := "ex"; RoutingKey := "rk"; ContentType := "text/plain";
                     Mandatory := false; Immediate := false; Headers := [];
                     DeliveryMode := 2%Z; Priority := 0%Z;
                     CorrelationID := ""; Type_ := "" |};
     Body := [Byte.x68; Byte.x69] |}.

(** The pool gives channel 7, the channel accepts the letter, and the
    first poll of the [select] finds nothing. *)
Definition demoWaiting : list (Answer nat) :=
  [GotChannel (inl 7); Published None; Selected Default].

Definition demoWaitingTrace : list (Call string demoTable nat) :=
  [GetChannelFromPool; FlushConfirms 7;
   TimeAfter (50 * Millisecond)%Z; submit id demoPublisher 7 demoLetter;
   Sleep (Millisecond * 1)%Z].

Definition demoPoolError : error := errorString "connection pool is shut down".

Definition demoOracle (p : Chosen) (a : Answer nat) : Oracle nat :=
  {| pick := p; answer := a |}.

Definition demoIdle : Oracle nat := demoOracle First (Selected Default).

(** Auto-publishing is started, letter 1 is queued, the loop starts an
    attempt for it, the attempt gets channel 7 and submits. *)
Definition demoAttempting : list (Event string demoTable nat) :=
  [Invoke InvokeStartAutoPublishing;
   Move 0 demoIdle; Move 0 demoIdle; Move 0 demoIdle; Move 0 demoIdle;
   Move 1 demoIdle;
   Invoke (InvokeQueueLetter demoLetter);
   Move 2 demoIdle; Move 2 demoIdle;
   Move 1 demoIdle; Move 1 demoIdle; Move 1 demoIdle; Move 1 demoIdle;
   Move 3 (demoOracle First (GotChannel (inl 7)));
   Move 3 (demoOracle First (Published None))].

(** The broker acks, and [Shutdown(true)] is called and reaches its
    [wg.Wait()]. *)
Definition demoShuttingDown : list (Event string demoTable nat) :=
  demoAttempting ++
  [Move 3 (demoOracle First (Selected (Confirmation true 1%Z)));
   Invoke (InvokeShutdown true);
   Move 5 demoIdle; Move 5 demoIdle].

(** The attempt gives its permit back and ends, the receipt is sent, and
    the loop sees the shutdown signal and ends. *)
Definition demoDrained : list (Event string demoTable nat) :=
  demoShuttingDown ++
  [Move 3 demoIdle; Move 3 demoIdle;
   Move 4 demoIdle; Move 4 demoIdle;
   Move 1 demoIdle; Move 1 demoIdle; Move 1 demoIdle].

(** [Shutdown(true)] called on a new publisher, and returned. *)
Definition demoShutDown : list (Event string demoTable nat) :=
  [Invoke (InvokeShutdown true);
   Move 0 demoIdle; Move 0 demoIdle; Move 0 demoIdle].

Definition after (evs : list (Event string demoTable nat)) : System string demoTable nat :=
  default initial (steps id demoPublisher initial evs).

Lemma after_reachable evs :
  is_Some (steps id demoPublisher initial evs) → reachable id demoPublisher (after evs).
Proof.
  intros [st H]. exists evs. unfold after. rewrite H. reflexivity.
Qed.

(** ** The scenarios of the specification *)

(** The broker acks at once: one receipt, a success. *)
Example scenario_ack :
  option_map (λ r, (isReturned r.1, receipts r.2))
    (PublishWithConfirmation id demoPublisher demoLetter 0%Z
       [GotChannel (inl 7); Published None; Selected (Confirmation true 1%Z)])
  = Some (true, [{| RLetterID := "1"; Success := true; Error := None;
                    FailedLetter := None |}]).
Proof. reflexivity. Qed.

(** The broker nacks twice and then acks: three submissions on channel
    7, one receipt, a success. *)
Example scenario_nack_nack_ack :
  option_map (λ r, (submissions r.2, receipts r.2))
    (PublishWithConfirmation id demoPublisher demoLetter 0%Z
       [GotChannel (inl 7); Published None;
        Selected (Confirmation false 1%Z); Published None;
        Selected (Confirmation false 2%Z); Published None;
        Selected (Confirmation true 3%Z)])
  = Some ([7; 7; 7],
          [{| RLetterID := "1"; Success := true; Error := None;
              FailedLetter := None |}]).
Proof. reflexivity. Qed.

(** With one cached channel the loop has one permit: while the attempt
    for letter 1 is under way, a second letter is taken from the queue
    and the loop then waits at its semaphore. *)
Example scenario_throttled :
  attemptsInFlight 0 (after demoAttempting) = 1
  ∧ capacity demoPublisher = 1
  ∧ option_map goroutines
      (steps id demoPublisher (after demoAttempting)
         [Invoke (InvokeQueueLetter demoLetter); Move 4 demoIdle; Move 1 demoIdle])
    <> None
  ∧ steps id demoPublisher (after demoAttempting)
      [Invoke (InvokeQueueLetter demoLetter); Move 4 demoIdle; Move 1 demoIdle;
       Move 1 demoIdle]
    = None.
Proof. repeat split. discriminate. Qed.

(** While the loop, the attempt and the receipt emission are alive,
    [Shutdown] stays in [wg.Wait()]. *)
Example scenario_shutdown_waits :
  spawned <$> goroutines (after demoShuttingDown) = [false; true; false; true; true; false]
  ∧ step id demoPublisher (after demoShuttingDown) (Move 5 demoIdle) = None.
Proof. split; reflexivity. Qed.

(** ** The theorems at the concrete publisher *)

Lemma PublishWithConfirmation_timeout_witness :
  PublishWithConfirmation id demoPublisher demoLetter 0%Z demoWaiting
  = Some (AtSelect 7, demoWaitingTrace)
  ∧ PublishWithConfirmation id demoPublisher demoLetter 0%Z
      (demoWaiting ++ [Selected TimedOut])
    = Some (Returned (),
            demoWaitingTrace
            ++ [GoPublishReceipt (publishReceipt demoLetter (Some (timeoutError id demoLetter)));
                ReturnChannel (Some 7) false]).
Proof.
  split; [reflexivity|].
  apply (PublishWithConfirmation_timeout string demoTable nat id
           demoPublisher demoLetter 0%Z demoWaiting [] 7 demoWaitingTrace).
  reflexivity.
Defined.

(** A caller's timeout of 30ms, where the publisher is configured with
    50ms: after two nacks the letter has been submitted three times on
    channel 7, each time under a timer of 30ms. *)
Lemma PublishWithConfirmation_nack_witness :
  PublishWithConfirmation id demoPublisher demoLetter (30 * Millisecond)%Z demoWaiting
  = Some (AtSelect 7,
          [GetChannelFromPool; FlushConfirms 7;
           TimeAfter 30000000%Z;
           ChannelPublish 7 "ex" "rk" false false
             {| P_ContentType := "text/plain"; P_Body := [Byte.x68; Byte.x69];
                P_Headers := []; P_DeliveryMode := 2%Z; P_Priority := 0%Z;
                P_MessageId := "1"; P_CorrelationId := ""; P_Type := "";
                P_AppId := "tcr" |};
           Sleep 1000000%Z])
  ∧ PublishWithConfirmation id demoPublisher demoLetter (30 * Millisecond)%Z
      (demoWaiting ++ [Selected (Confirmation false 1%Z); Published None;
                       Selected (Confirmation false 1%Z); Published None])
    = Some (AtSelect 7,
            [GetChannelFromPool; FlushConfirms 7;
             TimeAfter 30000000%Z;
             ChannelPublish 7 "ex" "rk" false false
               {| P_ContentType := "text/plain"; P_Body := [Byte.x68; Byte.x69];
                  P_Headers := []; P_DeliveryMode := 2%Z; P_Priority := 0%Z;
                  P_MessageId := "1"; P_CorrelationId := ""; P_Type := "";
                  P_AppId := "tcr" |};
             Sleep 1000000%Z]
            ++ [TimeAfter 30000000%Z;
                ChannelPublish 7 "ex" "rk" false false
                  {| P_ContentType := "text/plain"; P_Body := [Byte.x68; Byte.x69];
                     P_Headers := []; P_DeliveryMode := 2%Z; P_Priority := 0%Z;
                     P_MessageId := "1"; P_CorrelationId := ""; P_Type := "";
                     P_AppId := "tcr" |};
                TimeAfter 30000000%Z;
                ChannelPublish 7 "ex" "rk" false false
                  {| P_ContentType := "text/plain"; P_Body := [Byte.x68; Byte.x69];
                     P_Headers := []; P_DeliveryMode := 2%Z; P_Priority := 0%Z;
                     P_MessageId := "1"; P_CorrelationId := ""; P_Type := "";
                     P_AppId := "tcr" |}]).
Proof.
  split; [reflexivity|].
  pose proof (PublishWithConfirmation_nack string demoTable nat id
                demoPublisher demoLetter (30 * Millisecond)%Z demoWaiting 7 _ 1%Z
                30000000%Z _ eq_refl eq_refl eq_refl) as (_ & _ & H & _).
  exact (proj1 (H 2)).
Defined.

Lemma PublishWithConfirmation_submission_error_witness :
  PublishWithConfirmation id demoPublisher demoLetter 0%Z [GotChannel (inl 7)]
  = Some (AtPublish 7, [GetChannelFromPool; FlushConfirms 7])
  ∧ PublishWithConfirmation id demoPublisher demoLetter 0%Z
      ([GotChannel (inl 7)] ++ [Published (Some demoPoolError)])
    = Some (AtAcquire,
            [GetChannelFromPool; FlushConfirms 7]
            ++ [TimeAfter (effectiveTimeout demoPublisher 0%Z);
                submit id demoPublisher 7 demoLetter;
                ReturnChannel (Some 7) true]).
Proof.
  split; [reflexivity|].
  apply (PublishWithConfirmation_submission_error string demoTable nat id
           demoPublisher demoLetter 0%Z [GotChannel (inl 7)] 7
           [GetChannelFromPool; FlushConfirms 7] demoPoolError).
  reflexivity.
Defined.

Lemma PublishReceipt_of_letter_witness :
  Emits (ChannelHost := nat) id demoPublisher demoLetter
    (publishReceipt demoLetter (Some demoPoolError))
  ∧ FailedLetter _ _ (publishReceipt demoLetter (Some demoPoolError)) = Some demoLetter.
Proof.
  assert (H : Emits (ChannelHost := nat) id demoPublisher demoLetter
                (publishReceipt demoLetter (Some demoPoolError))).
  { apply (Emits_Publish _ _ _ _ _ _ false (inl 7) (Some demoPoolError)).
    apply list_elem_of_here. }
  split; [exact H|].
  apply (PublishReceipt_of_letter string demoTable nat id demoPublisher demoLetter _ H).
  discriminate.
Defined.



Lemma Shutdown_waits_for_spawned_witness :
  reachable id demoPublisher (after demoDrained)
  ∧ goroutines (after demoDrained) !! 5 = Some (InShutdown true HWait)
  ∧ ∀ st', step id demoPublisher (after demoDrained) (Move 5 demoIdle) = Some st' →
      goroutines st' = <[5 := Finished None]> (goroutines (after demoDrained))
      ∧ Forall (λ g, spawned g = false) (goroutines st').
Proof.
  assert (H : reachable id demoPublisher (after demoDrained)).
  { apply after_reachable. vm_compute. eauto. }
  split; [exact H|]. split; [reflexivity|].
  apply (Shutdown_waits_for_spawned string demoTable nat id demoPublisher
           (after demoDrained) 5 true demoIdle H).
  reflexivity.
Defined.

(** ** Where the code differs *)


(** The pool has been shut down and gives no channel: [Publish] with
    [skipReceipt = false] hands no receipt to [publishReceipt], submits
    nothing, and returns the nil host with [erred = true] although no
    submission failed. *)
Lemma Publish_acquire_failure_counterexample :
  receipts (Publish (ChannelHost := nat) id demoPublisher demoLetter false
              (inr demoPoolError) None) = []
  ∧ submissions (Publish (ChannelHost := nat) id demoPublisher demoLetter false
                   (inr demoPoolError) None) = []
  ∧ returns (Publish (ChannelHost := nat) id demoPublisher demoLetter false
               (inr demoPoolError) None) = [(None, true)].
Proof. repeat split. Qed.

(** * More of the publisher, at the concrete publisher *)

Arguments flushed {UUID Table ChannelHost} trace.
Arguments without {A} p l.
Arguments isPoll {ChannelHost} a.
Arguments isSleep {UUID Table ChannelHost} c.
Arguments acquireError {UUID Table} UUID_String letter err.
Arguments GotTransientChannel {Channel} r.
Arguments TransientPublished {Channel} err.
Arguments TransientSelected {Channel} c.
Arguments TReturned {Channel}.
Arguments PublishWithConfirmationTransient {UUID Table} UUID_String {Channel}
  pub sleepOnErrorInterval letter timeout answers.
Arguments opened {UUID Table Channel} trace.
Arguments closes {UUID Table Channel} trace.
Arguments transientReceipts {UUID Table Channel} trace.
Arguments sleeps {UUID Table Channel} trace.
Arguments enqueue {A} c ls.
Arguments buf {A} c.
Arguments publishReceipts {UUID Table} s.
Arguments autoStarted {UUID Table} s.
Arguments wg {UUID Table} s.
Arguments NewPublisher {UUID Table}.
Arguments channelsOk {UUID Table} sh.
Arguments Attempt {UUID Table ChannelHost} sem letter pc.
Arguments AutoPublishingLoop {UUID Table ChannelHost} pc.
Arguments LSelect {UUID Table} sem.
Arguments isLoop {UUID Table ChannelHost} g.
Arguments doubleStart {UUID Table ChannelHost} n o.
Arguments permits {UUID Table} sh sem.
Arguments holds {UUID Table ChannelHost} sem g.

Definition demoTimedOutTrace : list (Call string demoTable nat) :=
  demoWaitingTrace
  ++ [GoPublishReceipt (publishReceipt demoLetter (Some (timeoutError id demoLetter)));
      ReturnChannel (Some 7) false].

(** Channel 7 fails to submit; channel 8 submits and the broker acks. *)
Definition demoRetried : list (Answer nat) :=
  [GotChannel (inl 7); Published (Some demoPoolError);
   GotChannel (inl 8); Published None; Selected (Confirmation true 1%Z)].

Definition demoRetriedTrace : list (Call string demoTable nat) :=
  [GetChannelFromPool; FlushConfirms 7;
   TimeAfter (50 * Millisecond)%Z; submit id demoPublisher 7 demoLetter;
   ReturnChannel (Some 7) true;
   GetChannelFromPool; FlushConfirms 8;
   TimeAfter (50 * Millisecond)%Z; submit id demoPublisher 8 demoLetter;
   GoPublishReceipt (publishReceipt demoLetter None);
   ReturnChannel (Some 8) false].

(** Transient channel 3 fails to submit; channel 4 submits and the
    broker acks. *)
Definition demoTransient : list (TransientAnswer nat) :=
  [GotTransientChannel (inl 3); TransientPublished (Some demoPoolError);
   GotTransientChannel (inl 4); TransientPublished None;
   TransientSelected Default;
   TransientSelected (Confirmation true 1%Z)].

Definition demoTransientTrace : list (TransientCall string demoTable nat) :=
  default [] (snd <$> PublishWithConfirmationTransient id demoPublisher
                        (100 * Millisecond)%Z demoLetter 0%Z demoTransient).

(** After [demoShuttingDown]: the attempt has given its permit back. *)
Definition demoReleased : list (Event string demoTable nat) :=
  demoShuttingDown ++ [Move 3 demoIdle].

(** Then the attempt has ended and the receipt is on the stream. *)
Definition demoEmitted : list (Event string demoTable nat) :=
  demoReleased ++ [Move 3 demoIdle; Move 4 demoIdle].

(** Then the receipt emission has ended; the loop is at its [select]. *)
Definition demoLoopLeft : list (Event string demoTable nat) :=
  demoEmitted ++ [Move 4 demoIdle].

Example scenario_retried :
  PublishWithConfirmation id demoPublisher demoLetter 0%Z demoRetried
  = Some (Returned (), demoRetriedTrace).
Proof. reflexivity. Qed.

(** The timeout of 50ms is printed as its nanoseconds before "ms". *)
Example scenario_transient_timeout_message :
  Error_ (transientTimeoutError string demoTable id demoLetter (50 * Millisecond)%Z)
  = "publish confirmation for LetterID: 1 wasn't received in a timely manner (50000000ms) - recommend retry/requeue".
Proof. reflexivity. Qed.

(** The [Error] variant on the same answers: the same calls but for the
    receipt, and the nil result. *)
Example scenario_retried_error :
  PublishWithConfirmationError _ _ _ id demoPublisher demoLetter 0%Z demoRetried
  = Some (Returned None, without (isReceipt _ _ _) demoRetriedTrace).
Proof. reflexivity. Qed.

(** The context variant, its context expiring while it waits. *)
Example scenario_context_expired :
  PublishWithConfirmationContext _ _ _ id demoPublisher demoLetter
    (demoWaiting ++ [Selected TimedOut])
  = Some (Returned (),
          [GetChannelFromPool; FlushConfirms 7; submit id demoPublisher 7 demoLetter;
           Sleep (Millisecond * 1)%Z;
           GoPublishReceipt
             (publishReceipt demoLetter (Some (contextError _ _ id demoLetter)));
           ReturnChannel (Some 7) false]).
Proof. reflexivity. Qed.

Lemma PublishWithConfirmation_one_receipt_witness :
  PublishWithConfirmation id demoPublisher demoLetter 0%Z
    (demoWaiting ++ [Selected TimedOut])
  = Some (Returned (), demoTimedOutTrace)
  ∧ ∃ e, receipts demoTimedOutTrace = [publishReceipt demoLetter e].
Proof.
  split; [reflexivity|].
  apply (PublishWithConfirmation_one_receipt string demoTable nat id demoPublisher
           demoLetter 0%Z (demoWaiting ++ [Selected TimedOut]) (Returned ())
           demoTimedOutTrace); reflexivity.
Defined.

Lemma PublishWithConfirmation_success_needs_ack_witness :
  PublishWithConfirmation id demoPublisher demoLetter 0%Z demoRetried
  = Some (Returned (), demoRetriedTrace)
  ∧ ∃ tag, Selected (Confirmation true tag) ∈ demoRetried.
Proof.
  split; [reflexivity|].
  apply (PublishWithConfirmation_success_needs_ack string demoTable nat id
           demoPublisher demoLetter 0%Z demoRetried (Returned ()) demoRetriedTrace
           (publishReceipt demoLetter None)).
  - reflexivity.
  - apply list_elem_of_here.
  - reflexivity.
Defined.

Lemma PublishWithConfirmation_returns_every_channel_witness :
  PublishWithConfirmation id demoPublisher demoLetter 0%Z demoRetried
  = Some (Returned (), demoRetriedTrace)
  ∧ ∃ hs last,
      flushed demoRetriedTrace = hs ++ last
      ∧ returns demoRetriedTrace
        = ((λ h, (Some h, true)) <$> hs) ++ ((λ h, (Some h, false)) <$> last)
      ∧ length last ≤ 1.
Proof.
  split; [reflexivity|].
  apply (PublishWithConfirmation_returns_every_channel string demoTable nat id
           demoPublisher demoLetter 0%Z demoRetried demoRetriedTrace).
  reflexivity.
Defined.

Lemma PublishWithConfirmation_acquire_failure_witness :
  PublishWithConfirmation id demoPublisher demoLetter 0%Z
    [GotChannel (inl 7); Published (Some demoPoolError)]
  = Some (AtAcquire,
          [GetChannelFromPool; FlushConfirms 7;
           TimeAfter (50 * Millisecond)%Z; submit id demoPublisher 7 demoLetter;
           ReturnChannel (Some 7) true])
  ∧ PublishWithConfirmation id demoPublisher demoLetter 0%Z
      ([GotChannel (inl 7); Published (Some demoPoolError)]
       ++ [GotChannel (inr demoPoolError)])
    = Some (Returned (),
            [GetChannelFromPool; FlushConfirms 7;
             TimeAfter (50 * Millisecond)%Z; submit id demoPublisher 7 demoLetter;
             ReturnChannel (Some 7) true]
            ++ [GetChannelFromPool;
                GoPublishReceipt
                  (publishReceipt demoLetter
                     (Some (acquireError id demoLetter demoPoolError)))]).
Proof.
  split; [reflexivity|].
  apply (PublishWithConfirmation_acquire_failure string demoTable nat id
           demoPublisher demoLetter 0%Z
           [GotChannel (inl 7); Published (Some demoPoolError)] []
           [GetChannelFromPool; FlushConfirms 7;
            TimeAfter (50 * Millisecond)%Z; submit id demoPublisher 7 demoLetter;
            ReturnChannel (Some 7) true] demoPoolError).
  reflexivity.
Defined.

Lemma PublishWithConfirmation_polls_unobservable_witness :
  PublishWithConfirmation id demoPublisher demoLetter 0%Z
    (demoWaiting ++ [Selected TimedOut])
  = Some (Returned (), demoTimedOutTrace)
  ∧ PublishWithConfirmation id demoPublisher demoLetter 0%Z
      (without isPoll (demoWaiting ++ [Selected TimedOut]))
    = Some (Returned (), without isSleep demoTimedOutTrace).
Proof.
  split; [reflexivity|].
  apply (PublishWithConfirmation_polls_unobservable string demoTable nat id
           demoPublisher demoLetter 0%Z (demoWaiting ++ [Selected TimedOut])
           (Returned ()) demoTimedOutTrace).
  reflexivity.
Defined.

Lemma PublishWithConfirmation_ack_witness :
  PublishWithConfirmation id demoPublisher demoLetter 0%Z demoWaiting
  = Some (AtSelect 7, demoWaitingTrace)
  ∧ PublishWithConfirmation id demoPublisher demoLetter 0%Z
      (demoWaiting ++ [Selected (Confirmation true 1%Z)])
    = Some (Returned (),
            demoWaitingTrace
            ++ [GoPublishReceipt (publishReceipt demoLetter None);
                ReturnChannel (Some 7) false]).
Proof.
  split; [reflexivity|].
  apply (PublishWithConfirmation_ack string demoTable nat id
           demoPublisher demoLetter 0%Z demoWaiting [] 7 demoWaitingTrace 1%Z).
  reflexivity.
Defined.

Lemma PublishWithConfirmationTransient_closes_every_channel_witness :
  PublishWithConfirmationTransient id demoPublisher (100 * Millisecond)%Z
    demoLetter 0%Z demoTransient
  = Some (TReturned, demoTransientTrace)
  ∧ opened demoTransientTrace = [3; 4]
  ∧ closes demoTransientTrace = opened demoTransientTrace.
Proof.
  split; [reflexivity|]. split; [reflexivity|].
  apply (PublishWithConfirmationTransient_closes_every_channel string demoTable id nat
           demoPublisher (100 * Millisecond)%Z demoLetter 0%Z demoTransient
           demoTransientTrace).
  reflexivity.
Defined.

Lemma PublishWithConfirmationTransient_never_backs_off_witness :
  PublishWithConfirmationTransient id demoPublisher (100 * Millisecond)%Z
    demoLetter 0%Z demoTransient
  = Some (TReturned, demoTransientTrace)
  ∧ sleeps demoTransientTrace = [(Millisecond * 4)%Z]
  ∧ Forall (λ d, d = (Millisecond * 4)%Z) (sleeps demoTransientTrace).
Proof.
  split; [reflexivity|]. split; [reflexivity|].
  apply (PublishWithConfirmationTransient_never_backs_off string demoTable id nat
           demoPublisher (100 * Millisecond)%Z demoLetter 0%Z demoTransient
           TReturned demoTransientTrace).
  - reflexivity.
  - unfold Millisecond. lia.
Defined.

(** After [Shutdown], the runtime picks the send for the first letter
    and the closed signal for the second: false, with one letter queued. *)
Lemma QueueLetters_enqueues_prefix_witness :
  QueueLetters (shared (after demoShutDown)) [demoLetter; demoLetter]
    (λ i, match i with 0 => Second | _ => First end)
  = Ret (false,
         set_letters (enqueue (letters (shared (after demoShutDown))) [demoLetter])
           (shared (after demoShutDown)))
  ∧ ∃ k, set_letters (enqueue (letters (shared (after demoShutDown))) [demoLetter])
           (shared (after demoShutDown))
         = set_letters
             (enqueue (letters (shared (after demoShutDown)))
                (take k [demoLetter; demoLetter]))
             (shared (after demoShutDown))
         ∧ k < 2.
Proof.
  split; [reflexivity|].
  apply (QueueLetters_enqueues_prefix string demoTable
           (shared (after demoShutDown)) [demoLetter; demoLetter]
           (λ i, match i with 0 => Second | _ => First end) false).
  reflexivity.
Defined.

Lemma QueueLetter_before_Shutdown_witness :
  closed (shutdownSignal (NewPublisher (UUID := string) (Table := demoTable))) = false
  ∧ QueueLetter NewPublisher demoLetter First
    = Ret (true, set_letters (push (letters NewPublisher) demoLetter) NewPublisher).
Proof.
  split; [reflexivity|].
  apply (QueueLetter_before_Shutdown string demoTable NewPublisher demoLetter First);
    reflexivity.
Defined.

Lemma channels_stay_open_witness :
  reachable id demoPublisher (after demoAttempting)
  ∧ channelsOk (shared (after demoAttempting)).
Proof.
  assert (H : reachable id demoPublisher (after demoAttempting)).
  { apply after_reachable. vm_compute. eauto. }
  split; [exact H|].
  apply (channels_stay_open string demoTable nat id demoPublisher
           (after demoAttempting) demoLetter First H).
Defined.

Lemma wg_Done_never_panics_witness :
  reachable id demoPublisher (after demoReleased)
  ∧ goroutines (after demoReleased) !! 3 = Some (Attempt 0 demoLetter (ADone _))
  ∧ ∃ st', step id demoPublisher (after demoReleased) (Move 3 demoIdle) = Some st'
           ∧ wg (shared (after demoReleased)) = S (wg (shared st')).
Proof.
  assert (H : reachable id demoPublisher (after demoReleased)).
  { apply after_reachable. vm_compute. eauto. }
  split; [exact H|]. split; [reflexivity|].
  apply (wg_Done_never_panics string demoTable nat id demoPublisher
           (after demoReleased) 3 (Attempt 0 demoLetter (ADone _)) demoIdle H);
    reflexivity.
Defined.

Lemma stream_receipts_are_built_witness :
  reachable id demoPublisher (after demoEmitted)
  ∧ buf (publishReceipts (shared (after demoEmitted))) = [publishReceipt demoLetter None]
  ∧ (Success _ _ (publishReceipt demoLetter None) = true
     ↔ Error _ _ (publishReceipt demoLetter None) = None).
Proof.
  assert (H : reachable id demoPublisher (after demoEmitted)).
  { apply after_reachable. vm_compute. eauto. }
  split; [exact H|]. split; [reflexivity|].
  apply (stream_receipts_are_built string demoTable nat id demoPublisher
           (after demoEmitted) (publishReceipt demoLetter None) H).
  apply list_elem_of_here.
Defined.

Lemma Shutdown_is_final_witness :
  steps id demoPublisher (after demoShutDown) [Invoke (InvokeShutdown false)]
  = Some (after (demoShutDown ++ [Invoke (InvokeShutdown false)]))
  ∧ closed (shutdownSignal (shared (after (demoShutDown ++ [Invoke (InvokeShutdown false)]))))
    = true
  ∧ step id demoPublisher (after (demoShutDown ++ [Invoke (InvokeShutdown false)]))
      (Move 1 demoIdle)
    = None.
Proof.
  split; [reflexivity|].
  destruct (Shutdown_is_final string demoTable nat id demoPublisher
              (after demoShutDown) [Invoke (InvokeShutdown false)]
              (after (demoShutDown ++ [Invoke (InvokeShutdown false)]))
              eq_refl eq_refl) as [Hc Hs].
  split; [exact Hc|]. apply (Hs 1 false demoIdle). reflexivity.
Defined.

Lemma StartAutoPublishing_can_start_twice_witness :
  autoStarted (shared (initial (UUID := string) (Table := demoTable) (ChannelHost := nat)))
  = false
  ∧ ∃ st' : System string demoTable nat,
      steps id demoPublisher initial (doubleStart 0 demoIdle) = Some st'
           ∧ sum_list_with isLoop (goroutines st') = 2
           ∧ wg (shared st') = 2.
Proof.
  split; [reflexivity|].
  apply (StartAutoPublishing_can_start_twice string demoTable nat id demoPublisher
           initial demoIdle).
  reflexivity.
Defined.

Lemma drain_loop_ends_after_shutdown_witness :
  reachable id demoPublisher (after demoLoopLeft)
  ∧ goroutines (after demoLoopLeft) !! 1 = Some (AutoPublishingLoop (LSelect 0))
  ∧ ∃ n, wg (shared (after demoLoopLeft)) = S n
         ∧ steps id demoPublisher (after demoLoopLeft)
             [Move 1 demoIdle; Move 1 (demoOracle Second (Selected Default));
              Move 1 demoIdle]
           = Some {| shared := set_wg _ _ n
                                 (set_autoStarted _ _ false (shared (after demoLoopLeft)));
                     goroutines := <[1 := Finished None]> (goroutines (after demoLoopLeft)) |}.
Proof.
  assert (H : reachable id demoPublisher (after demoLoopLeft)).
  { apply after_reachable. vm_compute. eauto. }
  split; [exact H|]. split; [reflexivity|].
  apply (drain_loop_ends_after_shutdown string demoTable nat id demoPublisher
           (after demoLoopLeft) 1 0 demoIdle (demoOracle Second (Selected Default))
           demoIdle H); reflexivity.
Defined.

Lemma permits_are_held_witness :
  reachable id demoPublisher (after demoAttempting)
  ∧ permits (shared (after demoAttempting)) 0 = 1
  ∧ permits (shared (after demoAttempting)) 0
    = sum_list_with (holds 0) (goroutines (after demoAttempting)).
Proof.
  assert (H : reachable id demoPublisher (after demoAttempting)).
  { apply after_reachable. vm_compute. eauto. }
  split; [exact H|]. split; [reflexivity|].
  apply (permits_are_held string demoTable nat id demoPublisher
           (after demoAttempting) 0 H).
Defined.
